(** * Directed graphs, traversals and DAGs of [student_code.py]

    A shallow embedding of the three classes of the module
    ([SortableDigraph], [TraversableDigraph], [DAG]) and the proofs of the
    properties listed for them.

    Modelling choices.
    - A node is any hashable Python value: a type [Node] with decidable
      equality that is countable (so that it can key a [gmap]/[gset]).
    - [self.graph] is a Python [dict] whose iteration order (insertion
      order) is observable through [predecessors] and [top_sort]: it is an
      association list [list (Node * list Node)], read by first match.
    - [self.node_values], [self.edge_weights] and [in_degree] are only read
      by key: they are [gmap]s.  [visited] is a [gset].
    - Python [None] default arguments are [option]s.
    - Generators are modelled by the list of the values they yield.
    - [while] loops take a fuel argument; every loop is proved to finish
      within the fuel its caller passes. *)

From stdpp Require Import gmap strings list fin_maps sorting relations.

Set Warnings "-clear-no-such-hyp".

Section digraph.

Context `{Countable Node} {Val Weight : Type}.

(** ** The adjacency dictionary *)

(** [d.get(n)] / [n in d]: first entry with key [n]. *)
Fixpoint dict_get (g : list (Node * list Node)) (n : Node) : option (list Node) :=
  match g with
  | [] => None
  | (k, ns) :: g' => if decide (k = n) then Some ns else dict_get g' n
  end.

Definition dict_mem (g : list (Node * list Node)) (n : Node) : bool :=
  match dict_get g n with Some _ => true | None => false end.

(** [d[n].append(x)]: the list stored under [n] is extended in place. *)
Fixpoint dict_append (g : list (Node * list Node)) (n x : Node) : list (Node * list Node) :=
  match g with
  | [] => []
  | (k, ns) :: g' =>
      if decide (k = n) then (k, ns ++ [x]) :: g' else (k, ns) :: dict_append g' n x
  end.

(** ** class SortableDigraph *)

Record SortableDigraph := MkDigraph {
  graph : list (Node * list Node);
  node_values : gmap Node Val;
  edge_weights : gmap (Node * Node) Weight
}.

(** [__init__] *)
Definition init : SortableDigraph := MkDigraph [] ∅ ∅.

(** [__contains__] *)
Definition contains (self : SortableDigraph) (node : Node) : bool :=
  dict_mem (graph self) node.

(** [__getitem__]: [self.graph.get(node, [])] *)
Definition getitem (self : SortableDigraph) (node : Node) : list Node :=
  default [] (dict_get (graph self) node).

(** [successors] has the same body as [__getitem__]. *)
Definition successors (self : SortableDigraph) (node : Node) : list Node :=
  default [] (dict_get (graph self) node).

(** [get_edge_weight]: [self.edge_weights.get((start, end))] *)
Definition get_edge_weight (self : SortableDigraph) (start end_ : Node) : option Weight :=
  edge_weights self !! (start, end_).

(** [add_node] *)
Definition add_node (self : SortableDigraph) (node : Node) (value : option Val)
  : SortableDigraph :=
  let g := if dict_mem (graph self) node then graph self
           else graph self ++ [(node, [])] in
  let nv := match value with
            | Some v => <[node := v]> (node_values self)
            | None => node_values self
            end in
  MkDigraph g nv (edge_weights self).

(** [SortableDigraph.add_edge] *)
Definition add_edge (self : SortableDigraph) (start end_ : Node)
    (edge_weight : option Weight) : SortableDigraph :=
  let s1 := if dict_mem (graph self) start then self else add_node self start None in
  let s2 := if dict_mem (graph s1) end_ then s1 else add_node s1 end_ None in
  let g3 := if decide (end_ ∈ default [] (dict_get (graph s2) start)) then graph s2
            else dict_append (graph s2) start end_ in
  let ew := match edge_weight with
            | Some w => <[(start, end_) := w]> (edge_weights s2)
            | None => edge_weights s2
            end in
  MkDigraph g3 (node_values s2) ew.

(** [predecessors]: scan of [self.graph.items()] in dictionary order. *)
Definition predecessors (self : SortableDigraph) (node : Node) : list Node :=
  fold_left (fun preds '(n, neighbors) =>
               if decide (node ∈ neighbors) then preds ++ [n] else preds)
            (graph self) [].

(** ** class TraversableDigraph *)

(** The inner [for] loop of [dfs].  The Python stack grows at its end; here
    its top is the head of the list, so [stack.append(x)] is [x :: stack] and
    [stack.pop()] takes the head. *)
Definition dfs_push (visited : gset Node) (neighbors stack : list Node) : list Node :=
  fold_left (fun st neighbor =>
               if decide (neighbor ∈ visited) then st else neighbor :: st)
            (reverse neighbors) stack.

Fixpoint dfs_loop (fuel : nat) (self : SortableDigraph) (start : Node)
    (visited : gset Node) (stack : list Node) : option (list Node) :=
  match stack with
  | [] => Some []
  | node :: stack' =>
      match fuel with
      | 0 => None
      | S fuel' =>
          if decide (node ∈ visited) then dfs_loop fuel' self start visited stack'
          else
            let visited' := {[node]} ∪ visited in
            let rest := dfs_loop fuel' self start visited'
                          (dfs_push visited' (getitem self node) stack') in
            if decide (node ≠ start) then cons node <$> rest else rest
      end
  end.

(** The inner [for] loop of [bfs]: [queue.append] adds at the back. *)
Definition bfs_push (visited : gset Node) (neighbors queue : list Node) : list Node :=
  fold_left (fun q neighbor =>
               if decide (neighbor ∈ visited) then q else q ++ [neighbor])
            neighbors queue.

Fixpoint bfs_loop (fuel : nat) (self : SortableDigraph) (start : Node)
    (visited : gset Node) (queue : list Node) : option (list Node) :=
  match queue with
  | [] => Some []
  | node :: queue' =>
      match fuel with
      | 0 => None
      | S fuel' =>
          if decide (node ∈ visited) then bfs_loop fuel' self start visited queue'
          else
            let visited' := {[node]} ∪ visited in
            let rest := bfs_loop fuel' self start visited'
                          (bfs_push visited' (getitem self node) queue') in
            if decide (node ≠ start) then cons node <$> rest else rest
      end
  end.

(** Number of adjacency entries: every iteration of a traversal loop either
    drops a stack/queue entry or visits a new node and pushes at most its
    successors, so one more than this many iterations always suffice. *)
Definition edge_count (g : list (Node * list Node)) : nat :=
  sum_list (map (fun e => length e.2) g).

Definition dfs (self : SortableDigraph) (start : Node) : option (list Node) :=
  dfs_loop (S (edge_count (graph self))) self start ∅ [start].

Definition bfs (self : SortableDigraph) (start : Node) : option (list Node) :=
  bfs_loop (S (edge_count (graph self))) self start ∅ [start].

(** ** class DAG *)

(** [_has_path]: the [for] loop over the generator returns [True] at the
    first yielded node equal to [target], [False] when it is exhausted. *)
Definition has_path (self : SortableDigraph) (start target : Node) : option bool :=
  if negb (contains self start) then Some false
  else out ← bfs self start; Some (bool_decide (target ∈ out)).

(** Exceptions: the [ValueError] of [DAG.add_edge] carries the pair its
    message is formatted from; [KeyError] is what [d[k]] raises on an absent
    key. *)
Inductive exn :=
  | ValueError (start end_ : Node)
  | KeyError (key : Node).

Inductive result (A : Type) :=
  | Ret (a : A)
  | Raise (e : exn)
  | OutOfFuel.
Global Arguments Ret {A} a.
Global Arguments Raise {A} e.
Global Arguments OutOfFuel {A}.

(** [DAG.add_edge].  The object is mutated before the check, so the state
    after the call is returned next to the outcome. *)
Definition dag_add_edge (self : SortableDigraph) (start end_ : Node)
    (edge_weight : option Weight) : SortableDigraph * result unit :=
  let s1 := if negb (contains self start) then add_node self start None else self in
  let s2 := if negb (contains s1 end_) then add_node s1 end_ None else s1 in
  match has_path s2 end_ start with
  | None => (s2, OutOfFuel)
  | Some true => (s2, Raise (ValueError start end_))
  | Some false => (add_edge s2 start end_ edge_weight, Ret ())
  end.

(** [top_sort], first loop nest: [in_degree[neighbor] += 1]. *)
Fixpoint count_neighbors (neighbors : list Node) (in_degree : gmap Node Z)
  : result (gmap Node Z) :=
  match neighbors with
  | [] => Ret in_degree
  | neighbor :: rest =>
      match in_degree !! neighbor with
      | None => Raise (KeyError neighbor)
      | Some d => count_neighbors rest (<[neighbor := (d + 1)%Z]> in_degree)
      end
  end.

Fixpoint count_items (items : list (Node * list Node)) (in_degree : gmap Node Z)
  : result (gmap Node Z) :=
  match items with
  | [] => Ret in_degree
  | (_, neighbors) :: rest =>
      match count_neighbors neighbors in_degree with
      | Ret in_degree' => count_items rest in_degree'
      | Raise e => Raise e
      | OutOfFuel => OutOfFuel
      end
  end.

(** [top_sort], inner [for] of the main loop: [in_degree[neighbor] -= 1] and
    the enqueue at zero. *)
Fixpoint relax (neighbors : list Node) (in_degree : gmap Node Z) (queue : list Node)
  : result (gmap Node Z * list Node) :=
  match neighbors with
  | [] => Ret (in_degree, queue)
  | neighbor :: rest =>
      match in_degree !! neighbor with
      | None => Raise (KeyError neighbor)
      | Some d =>
          let d' := (d - 1)%Z in
          relax rest (<[neighbor := d']> in_degree)
                (if decide (d' = 0%Z) then queue ++ [neighbor] else queue)
      end
  end.

Fixpoint top_sort_loop (fuel : nat) (self : SortableDigraph)
    (in_degree : gmap Node Z) (queue result_ : list Node) : result (list Node) :=
  match queue with
  | [] => Ret result_
  | node :: queue' =>
      match fuel with
      | 0 => OutOfFuel
      | S fuel' =>
          match dict_get (graph self) node with
          | None => Raise (KeyError node)
          | Some neighbors =>
              match relax neighbors in_degree queue' with
              | Ret (in_degree', queue'') =>
                  top_sort_loop fuel' self in_degree' queue'' (result_ ++ [node])
              | Raise e => Raise e
              | OutOfFuel => OutOfFuel
              end
          end
      end
  end.

(** [top_sort].  A node enters the queue at most once (its count passes
    through zero once), so the main loop runs at most once per key. *)
Definition top_sort (self : SortableDigraph) : result (list Node) :=
  let in_degree0 : gmap Node Z := list_to_map ((fun e => (e.1, 0%Z)) <$> graph self) in
  match count_items (graph self) in_degree0 with
  | Ret in_degree =>
      let queue := filter (fun node => in_degree !! node = Some 0%Z) (graph self).*1 in
      top_sort_loop (length (graph self)) self in_degree queue []
  | Raise e => Raise e
  | OutOfFuel => OutOfFuel
  end.

(** ** Sequences of API calls *)

Inductive op :=
  | AddNode (node : Node) (value : option Val)
  | AddEdge (start end_ : Node) (edge_weight : option Weight).

(** Calls on a [SortableDigraph] / [TraversableDigraph] object. *)
Definition base_step (self : SortableDigraph) (o : op) : SortableDigraph :=
  match o with
  | AddNode n v => add_node self n v
  | AddEdge a b w => add_edge self a b w
  end.

Definition base_run (ops : list op) : SortableDigraph := fold_left base_step ops init.

(** Calls on a [DAG] object; a raised [ValueError] is caught by the caller
    and the object keeps the state the call left it in. *)
Definition dag_step (self : SortableDigraph) (o : op) : SortableDigraph :=
  match o with
  | AddNode n v => add_node self n v
  | AddEdge a b w => (dag_add_edge self a b w).1
  end.

Definition dag_run (ops : list op) : SortableDigraph := fold_left dag_step ops init.

(** The nodes an API call names: [add_node] its node, [add_edge] both
    endpoints. *)
Definition op_nodes (o : op) : list Node :=
  match o with
  | AddNode n _ => [n]
  | AddEdge a b _ => [a; b]
  end.

(** ** Specification vocabulary *)

(** [u -> v] is an edge when [v] is in the successor sequence of [u]. *)
Definition edge (self : SortableDigraph) (u v : Node) : Prop := v ∈ getitem self u.

(** A nonempty sequence of edges from [u] to [v]. *)
Definition path (self : SortableDigraph) : relation Node := tc (edge self).

(** Zero or more edges. *)
Definition reachable (self : SortableDigraph) : relation Node := rtc (edge self).

Definition acyclic (self : SortableDigraph) : Prop := ∀ x, ¬ path self x x.

(** [d] is the shortest-path distance from [s] to [v]. *)
Definition is_dist (self : SortableDigraph) (s v : Node) (d : nat) : Prop :=
  nsteps (edge self) d s v ∧ ∀ k, nsteps (edge self) k s v → d ≤ k.

(** [u] is emitted before [v] in [l]. *)
Definition before (l : list Node) (u v : Node) : Prop :=
  ∃ l1 l2 l3, l = l1 ++ u :: l2 ++ v :: l3.

(** How many times [x] appears in [l]. *)
Definition occurrences (x : Node) (l : list Node) : nat :=
  length (filter (fun y => y = x) l).

(** The first occurrence of every element of [l] that is not in [seen]. *)
Fixpoint first_occurrences (seen : gset Node) (l : list Node) : list Node :=
  match l with
  | [] => []
  | x :: l' =>
      if decide (x ∈ seen) then first_occurrences seen l'
      else x :: first_occurrences ({[x]} ∪ seen) l'
  end.

(** ** Proof devices *)

(** The two traversal loops differ only in where the unvisited successors
    join the work list; [wl_loop] abstracts that place. *)
Fixpoint wl_loop (push : list Node → list Node → list Node) (fuel : nat)
    (self : SortableDigraph) (start : Node)
    (visited : gset Node) (wl : list Node) : option (list Node) :=
  match wl with
  | [] => Some []
  | node :: wl' =>
      match fuel with
      | 0 => None
      | S fuel' =>
          if decide (node ∈ visited) then wl_loop push fuel' self start visited wl'
          else
            let visited' := {[node]} ∪ visited in
            let new := filter (fun n => n ∉ visited') (getitem self node) in
            let rest := wl_loop push fuel' self start visited' (push new wl') in
            if decide (node ≠ start) then cons node <$> rest else rest
      end
  end.

(** A successor of a node of level [lv] is queued at level [lv + 1]. *)
Definition level_up (lv : nat) (n : Node) : Node * nat := (n, S lv).

(** [bfs_loop] with ghost data: every queue entry carries the length of the
    edge sequence by which it was reached, and the nodes appended to the
    queue are logged in order. *)
Fixpoint bfs_trace_loop (fuel : nat) (self : SortableDigraph) (start : Node)
    (visited : gset Node) (queue : list (Node * nat))
  : option (list (Node * nat) * list Node) :=
  match queue with
  | [] => Some ([], [])
  | (node, lv) :: queue' =>
      match fuel with
      | 0 => None
      | S fuel' =>
          if decide (node ∈ visited) then bfs_trace_loop fuel' self start visited queue'
          else
            let visited' := {[node]} ∪ visited in
            let new := filter (fun n => n ∉ visited') (getitem self node) in
            match bfs_trace_loop fuel' self start visited'
                    (queue' ++ (level_up lv <$> new)) with
            | None => None
            | Some (out, enq) =>
                Some (if decide (node ≠ start) then (node, lv) :: out else out,
                      new ++ enq)
            end
      end
  end.

(** The traced traversal: emitted nodes with their levels, and the whole
    enqueue sequence ([deque([start])] first). *)
Definition bfs_trace (self : SortableDigraph) (start : Node)
  : option (list (Node * nat) * list Node) :=
  match bfs_trace_loop (S (edge_count (graph self))) self start ∅ [(start, 0)] with
  | None => None
  | Some (out, enq) => Some (out, start :: enq)
  end.

(** Invariant of the traced breadth-first loop at level [h]: the queue is
    sorted by level with levels in [h, h+1]; a queue entry of level [l] is
    reached by [l] edges; the successors of a visited node are visited or
    queued no deeper than one past it; every node within fewer than [h]
    edges is visited; [start] is visited or queued at level 0. *)
Definition trace_inv (self : SortableDigraph) (start : Node) (h : nat)
    (visited : gset Node) (queue : list (Node * nat)) : Prop :=
  StronglySorted le queue.*2
  ∧ Forall (fun l => h ≤ l ≤ S h) queue.*2
  ∧ (∀ w l, (w, l) ∈ queue → nsteps (edge self) l start w)
  ∧ (∀ w' w, w' ∈ visited → edge self w' w →
       w ∈ visited ∨
       ∃ l, (w, l) ∈ queue ∧ ∀ k, nsteps (edge self) k start w' → l ≤ S k)
  ∧ (∀ w k, nsteps (edge self) k start w → k < h → w ∈ visited)
  ∧ (start ∈ visited ∨ (start, 0) ∈ queue).

(** What [DAG.add_edge] does maintain: no two distinct nodes lie on a
    common cycle. *)
Definition no_proper_cycle (self : SortableDigraph) : Prop :=
  ∀ x y, x ≠ y → path self x y → ¬ path self y x.

Definition no_self_loop (self : SortableDigraph) : Prop := ∀ x, ¬ edge self x x.

(** The state in which [add_edge] reaches its third [if]: both endpoints
    are keys. *)
Definition with_endpoints (self : SortableDigraph) (a b : Node) : SortableDigraph :=
  let s1 := if dict_mem (graph self) a then self else add_node self a None in
  if dict_mem (graph s1) b then s1 else add_node s1 b None.

(** Work still to do in a traversal: entries on the work list plus the
    successors of the keys not yet visited. *)
Definition pending (g : list (Node * list Node)) (visited : gset Node) : nat :=
  sum_list (map (fun e => if decide (e.1 ∈ visited) then 0 else length e.2) g).

(** Representation invariants of a graph built through the API: the
    dictionary has one entry per key, successor sequences have no repeated
    entry, and every successor is itself a key. *)
Definition keys_nodup (self : SortableDigraph) : Prop := NoDup (graph self).*1.

Definition adj_nodup (self : SortableDigraph) : Prop := ∀ u, NoDup (getitem self u).

Definition adj_closed (self : SortableDigraph) : Prop :=
  ∀ u v, edge self u v → contains self v = true.

Definition well_formed (self : SortableDigraph) : Prop :=
  keys_nodup self ∧ adj_nodup self ∧ adj_closed self.

(** Incoming edges of [v] whose source is not in [done_]: what
    [in_degree[v]] holds once the nodes of [done_] have been dequeued. *)
Definition indeg_rem (g : list (Node * list Node)) (done_ : list Node) (v : Node) : nat :=
  sum_list (map (fun e => if decide (e.1 ∈ done_) then 0 else occurrences v e.2) g).

(** Keys whose count in [in_degree] is still positive; with the length of
    the queue this bounds the iterations left in the main loop of
    [top_sort]. *)
Definition positive_keys (in_degree : gmap Node Z) (keys : list Node) : nat :=
  length (filter (fun k => (0 < default 0 (in_degree !! k))%Z) keys).

(** Consecutive members of [l] are joined by edges. *)
Fixpoint chain (self : SortableDigraph) (l : list Node) : Prop :=
  match l with
  | x :: l' =>
      match l' with
      | y :: _ => edge self x y ∧ chain self l'
      | [] => True
      end
  | [] => True
  end.

(** Invariant of the main loop of [top_sort]. *)
Definition topo_inv (self : SortableDigraph) (in_degree : gmap Node Z)
    (queue result_ : list Node) : Prop :=
  (∀ v, in_degree !! v =
        if decide (v ∈ (graph self).*1)
        then Some (Z.of_nat (indeg_rem (graph self) result_ v)) else None)
  ∧ NoDup (result_ ++ queue)
  ∧ (∀ v, v ∈ result_ ++ queue ↔
          v ∈ (graph self).*1 ∧ indeg_rem (graph self) result_ v = 0)
  ∧ (∀ r1 v r2, result_ = r1 ++ v :: r2 → ∀ u, edge self u v → u ∈ r1).

End digraph.

Global Arguments SortableDigraph Node {_ _} Val Weight.
Global Arguments op Node Val Weight : clear implicits.
Global Arguments exn Node : clear implicits.

(** ** Concrete graphs over string nodes *)

(** [g.add_edge("A","B"); g.add_edge("A","C"); g.add_edge("B","D")] on a
    fresh [TraversableDigraph]. *)
Definition abcd : SortableDigraph string unit unit :=
  base_run [AddEdge "A" "B" None; AddEdge "A" "C" None; AddEdge "B" "D" None]%string.

(** [d.add_edge("A","B"); d.add_edge("B","C"); d.add_edge("A","C")] on a
    fresh [DAG]. *)
Definition abc : SortableDigraph string unit unit :=
  dag_run [AddEdge "A" "B" None; AddEdge "B" "C" None; AddEdge "A" "C" None]%string.

(** [g.add_edge("A","B"); g.add_edge("B","A"); g.add_edge("B","C")] on a
    fresh [SortableDigraph]: a well-formed graph with a cycle. *)
Definition cyclic : SortableDigraph string unit unit :=
  base_run [AddEdge "A" "B" None; AddEdge "B" "A" None; AddEdge "B" "C" None]%string.

(** [d.add_edge("A","A")] on a fresh [DAG]. *)
Definition self_loop : SortableDigraph string unit unit :=
  dag_run [AddEdge "A" "A" None]%string.

(** * Proofs *)

Section digraph_facts.

Context `{Countable Node} {Val Weight : Type}.

Implicit Types (self : SortableDigraph Node Val Weight).
Implicit Types (g : list (Node * list Node)) (visited : gset Node).
Implicit Types (n u v w x start : Node).

(** ** The adjacency dictionary *)

Lemma dict_get_None g n : dict_get g n = None ↔ n ∉ g.*1.
Proof.
  induction g as [|[k ns] g IH]; simpl.
  - split; [intros _; apply not_elem_of_nil | done].
  - rewrite not_elem_of_cons. case_decide; subst.
    + split; [done | intros [? _]; done].
    + rewrite IH. split; [intros ?; split; [congruence | done] | by intros [_ ?]].
Qed.

Lemma dict_mem_true g n : dict_mem g n = true ↔ n ∈ g.*1.
Proof.
  unfold dict_mem. destruct (dict_get g n) eqn:E.
  - split; [intros _ | done].
    destruct (decide (n ∈ g.*1)) as [|Hn]; [done|].
    apply dict_get_None in Hn. congruence.
  - apply dict_get_None in E. split; [done | intros; contradiction].
Qed.

Lemma dict_mem_false g n : dict_mem g n = false ↔ n ∉ g.*1.
Proof.
  rewrite <- dict_mem_true. destruct (dict_mem g n); [|done].
  split; [done | intros Hn; by destruct Hn].
Qed.

Lemma dict_get_elem_of g n ns : dict_get g n = Some ns → (n, ns) ∈ g.
Proof.
  induction g as [|[k ms] g IH]; simpl; [done|].
  case_decide; subst.
  - intros [= ->]. left.
  - intros. right. auto.
Qed.

Lemma dict_get_snoc g n k ns :
  dict_get (g ++ [(k, ns)]) n =
  match dict_get g n with
  | Some l => Some l
  | None => if decide (k = n) then Some ns else None
  end.
Proof.
  induction g as [|[k' ms] g IH]; simpl.
  - done.
  - destruct (decide (k' = n)); [done | apply IH].
Qed.

Lemma dict_get_append g n x u :
  dict_get (dict_append g n x) u =
  if decide (u = n) then (λ l, l ++ [x]) <$> dict_get g n else dict_get g u.
Proof.
  induction g as [|[k ms] g IH]; simpl.
  - by case_decide.
  - destruct (decide (k = n)) as [->|Hk]; simpl.
    + destruct (decide (n = u)) as [->|Hnu].
      * by rewrite decide_True.
      * by rewrite decide_False by (intros ->; done).
    + rewrite IH. destruct (decide (k = u)) as [->|]; [|done].
      by rewrite decide_False by done.
Qed.

Lemma dict_append_keys g n x : (dict_append g n x).*1 = g.*1.
Proof.
  induction g as [|[k ms] g IH]; simpl; [done|].
  case_decide; simpl; [done | by f_equal].
Qed.

(** ** [add_node] and [SortableDigraph.add_edge] *)

Lemma getitem_add_node self n value u :
  getitem (add_node self n value) u = getitem self u.
Proof.
  unfold getitem, add_node; simpl.
  destruct (dict_mem (graph self) n) eqn:E; [done|].
  rewrite dict_get_snoc. destruct (dict_get (graph self) u); [done|].
  by case_decide.
Qed.

Lemma contains_add_node self n value u :
  contains (add_node self n value) u = true ↔ u = n ∨ contains self u = true.
Proof.
  unfold contains, add_node; simpl.
  destruct (dict_mem (graph self) n) eqn:E.
  - split; [auto | intros [->|]; done].
  - rewrite !dict_mem_true, fmap_app, elem_of_app. simpl.
    rewrite list_elem_of_singleton. naive_solver.
Qed.

Lemma edge_weights_add_node self n value :
  edge_weights (add_node self n value) = edge_weights self.
Proof. done. Qed.

Lemma with_endpoints_getitem self a b u :
  getitem (with_endpoints self a b) u = getitem self u.
Proof.
  unfold with_endpoints.
  repeat (case_match; rewrite ?getitem_add_node); done.
Qed.

Lemma with_endpoints_contains self a b u :
  contains (with_endpoints self a b) u = true ↔
  u = a ∨ u = b ∨ contains self u = true.
Proof.
  unfold with_endpoints.
  destruct (dict_mem (graph self) a) eqn:Ea.
  - destruct (dict_mem (graph self) b) eqn:Eb.
    + unfold contains. naive_solver.
    + rewrite contains_add_node. unfold contains. naive_solver.
  - destruct (dict_mem (graph (add_node self a None)) b) eqn:Eb.
    + rewrite contains_add_node.
      change (contains (add_node self a None) b = true) in Eb.
      rewrite contains_add_node in Eb. naive_solver.
    + rewrite !contains_add_node. naive_solver.
Qed.

Lemma with_endpoints_get self a b :
  dict_get (graph (with_endpoints self a b)) a = Some (getitem self a).
Proof.
  pose proof (proj2 (with_endpoints_contains self a b a) (or_introl eq_refl)) as Hc.
  pose proof (with_endpoints_getitem self a b a) as Hg.
  unfold contains, dict_mem, getitem in *.
  destruct (dict_get (graph (with_endpoints self a b)) a); [|done].
  simpl in Hg. by rewrite Hg.
Qed.

Lemma getitem_add_edge self a b weight u :
  getitem (add_edge self a b weight) u =
  if decide (u = a) then
    if decide (b ∈ getitem self a) then getitem self a else getitem self a ++ [b]
  else getitem self u.
Proof.
  unfold add_edge. fold (with_endpoints self a b).
  unfold getitem at 1; simpl.
  pose proof (with_endpoints_get self a b) as Ha. rewrite Ha. simpl.
  destruct (decide (b ∈ getitem self a)).
  - fold (getitem (with_endpoints self a b) u). rewrite with_endpoints_getitem.
    case_decide; by subst.
  - rewrite dict_get_append. case_decide; subst.
    + by rewrite Ha.
    + fold (getitem (with_endpoints self a b) u). apply with_endpoints_getitem.
Qed.

Lemma edge_add_edge_new self a b weight : b ∈ getitem (add_edge self a b weight) a.
Proof.
  rewrite getitem_add_edge, decide_True by done.
  case_decide; [done|]. apply elem_of_app. right. by left.
Qed.

Lemma contains_add_edge self a b weight u :
  contains (add_edge self a b weight) u = true ↔
  u = a ∨ u = b ∨ contains self u = true.
Proof.
  rewrite <- with_endpoints_contains.
  unfold add_edge. fold (with_endpoints self a b).
  unfold contains; simpl. case_decide; [done|].
  by rewrite !dict_mem_true, dict_append_keys.
Qed.

(** ** [predecessors] *)

Lemma predecessors_filter self node :
  predecessors self node = (filter (λ e, node ∈ e.2) (graph self)).*1.
Proof.
  unfold predecessors.
  assert (∀ g (acc : list Node),
            fold_left (λ preds '(n, neighbors),
                         if decide (node ∈ neighbors) then preds ++ [n] else preds) g acc
            = acc ++ (filter (λ e, node ∈ e.2) g).*1) as Hfold.
  { induction g as [|[k ns] g IH]; intros acc; simpl; [by rewrite app_nil_r|].
    rewrite IH, filter_cons. simpl. destruct (decide (node ∈ ns)); [|done].
    by rewrite <- app_assoc. }
  apply (Hfold _ []).
Qed.

Lemma predecessors_add_edge self a b weight :
  a ∈ predecessors (add_edge self a b weight) b.
Proof.
  rewrite predecessors_filter.
  set (s1 := add_edge self a b weight).
  assert (b ∈ getitem s1 a) as Hb.
  { apply edge_add_edge_new. }
  unfold getitem in Hb. destruct (dict_get (graph s1) a) as [ns|] eqn:Hget;
    [|by apply elem_of_nil in Hb].
  apply (list_elem_of_fmap_2 fst _ (a, ns)), list_elem_of_filter.
  split; [done | by apply dict_get_elem_of].
Qed.

(** ** The traversal loops *)

Lemma bfs_push_filter visited neighbors (queue : list Node) :
  bfs_push visited neighbors queue = queue ++ filter (λ n, n ∉ visited) neighbors.
Proof.
  unfold bfs_push. revert queue.
  induction neighbors as [|x l IH]; intros queue; simpl.
  - by rewrite app_nil_r.
  - rewrite IH, filter_cons. destruct (decide (x ∈ visited)) as [Hx|Hx].
    + by rewrite decide_False by (intros Hn; by apply Hn).
    + rewrite decide_True by done. by rewrite <- app_assoc.
Qed.

Lemma cons_push_filter visited (l stack : list Node) :
  fold_left (λ st n, if decide (n ∈ visited) then st else n :: st) l stack
  = reverse (filter (λ n, n ∉ visited) l) ++ stack.
Proof.
  revert stack. induction l as [|x l IH]; intros stack; simpl; [done|].
  rewrite IH, filter_cons. destruct (decide (x ∈ visited)) as [Hx|Hx].
  - by rewrite decide_False by (intros Hn; by apply Hn).
  - rewrite decide_True by done. by rewrite reverse_cons, <- app_assoc.
Qed.

Lemma dfs_push_filter visited neighbors (stack : list Node) :
  dfs_push visited neighbors stack = filter (λ n, n ∉ visited) neighbors ++ stack.
Proof.
  unfold dfs_push. by rewrite cons_push_filter, filter_reverse, reverse_involutive.
Qed.

Lemma bfs_loop_wl fuel self start visited queue :
  bfs_loop fuel self start visited queue
  = wl_loop (λ new rest, rest ++ new) fuel self start visited queue.
Proof.
  revert visited queue. induction fuel as [|fuel IH]; intros visited queue;
    destruct queue as [|x q]; simpl; try done.
  destruct (decide (x ∈ visited)); [apply IH|].
  by rewrite bfs_push_filter, IH.
Qed.

Lemma dfs_loop_wl fuel self start visited stack :
  dfs_loop fuel self start visited stack
  = wl_loop (λ new rest, new ++ rest) fuel self start visited stack.
Proof.
  revert visited stack. induction fuel as [|fuel IH]; intros visited stack;
    destruct stack as [|x q]; simpl; try done.
  destruct (decide (x ∈ visited)); [apply IH|].
  by rewrite dfs_push_filter, IH.
Qed.

(** *** Termination measure *)

Lemma pending_mono g visited visited' :
  visited ⊆ visited' → pending g visited' ≤ pending g visited.
Proof.
  intros Hsub. unfold pending.
  induction g as [|[k ns] g IH]; simpl; [done|].
  destruct (decide (k ∈ visited)) as [Hk|Hk].
  - rewrite decide_True by set_solver. lia.
  - destruct (decide (k ∈ visited')); lia.
Qed.

Lemma pending_visit g visited x :
  x ∉ visited →
  pending g ({[x]} ∪ visited) + length (default [] (dict_get g x)) ≤ pending g visited.
Proof.
  intros Hx. induction g as [|[k ns] g IH]; simpl; [done|].
  unfold pending in *; simpl.
  destruct (decide (k = x)) as [->|Hk]; simpl.
  - rewrite decide_True by set_solver. rewrite decide_False by done.
    pose proof (pending_mono g visited ({[x]} ∪ visited)) as Hm.
    unfold pending in Hm. specialize (Hm ltac:(set_solver)). lia.
  - destruct (decide (k ∈ visited)) as [Hv|Hv].
    + rewrite decide_True by set_solver. lia.
    + rewrite decide_False by set_solver. lia.
Qed.

Lemma pending_empty g : pending g ∅ = edge_count g.
Proof.
  unfold pending, edge_count. induction g as [|[k ns] g IH]; simpl; [done|].
  rewrite decide_False by set_solver. by rewrite IH.
Qed.

(** *** The generic work-list traversal *)

Section worklist.

Variable push : list Node → list Node → list Node.
Hypothesis push_perm : ∀ new rest, push new rest ≡ₚ new ++ rest.

Variables (self : SortableDigraph Node Val Weight) (start : Node).

Lemma wl_loop_terminates fuel visited (wl : list Node) :
  length wl + pending (graph self) visited ≤ fuel →
  is_Some (wl_loop push fuel self start visited wl).
Proof.
  revert visited wl. induction fuel as [|fuel IH]; intros visited wl Hle;
    destruct wl as [|x wl]; simpl in *; try (by eexists); try lia.
  destruct (decide (x ∈ visited)) as [Hx|Hx].
  - apply IH. lia.
  - pose proof (pending_visit (graph self) visited x Hx) as Hp.
    set (new := filter (λ n, n ∉ {[x]} ∪ visited) (getitem self x)).
    assert (length new ≤ length (default [] (dict_get (graph self) x))) as Hn
      by apply length_filter.
    destruct (IH ({[x]} ∪ visited) (push new wl)) as [out Hout].
    { rewrite push_perm, length_app. lia. }
    rewrite Hout. case_decide; by eexists.
Qed.

Lemma wl_loop_spec fuel visited (wl out : list Node) :
  start ∈ visited →
  wl_loop push fuel self start visited wl = Some out →
  NoDup out
  ∧ (∀ v, v ∈ out → (v ∉ visited) ∧ (∃ w, w ∈ wl ∧ reachable self w v))
  ∧ (∀ w, w ∈ wl → w ∈ visited ∨ w ∈ out)
  ∧ (∀ u v, u ∈ out → edge self u v → v ∈ visited ∨ v ∈ out).
Proof.
  revert visited wl out. induction fuel as [|fuel IH]; intros visited wl out Hs;
    destruct wl as [|x wl]; simpl; try done.
  - intros [= <-]. split_and!; [constructor | | |]; intros *; by rewrite ?elem_of_nil.
  - intros [= <-]. split_and!; [constructor | | |]; intros *; by rewrite ?elem_of_nil.
  - destruct (decide (x ∈ visited)) as [Hx|Hx].
    + intros Hl. destruct (IH _ _ _ Hs Hl) as (Hnd & Hsound & Hwl & Hcl).
      split_and!; [done | | |done].
      * intros v Hv. destruct (Hsound v Hv) as (? & w & ? & ?).
        split; [done|]. exists w. split; [by right | done].
      * intros w [->|Hw]%elem_of_cons; [by left | by apply Hwl].
    + set (visited' := {[x]} ∪ visited).
      set (new := filter (λ n, n ∉ visited') (getitem self x)).
      destruct (wl_loop push fuel self start visited' (push new wl)) as [out'|] eqn:Hl;
        [|by case_decide].
      assert (x ≠ start) as Hxs by (intros ->; done).
      rewrite decide_True by done. simpl. intros [= <-].
      assert (start ∈ visited') as Hs' by set_solver.
      destruct (IH visited' _ _ Hs' Hl) as (Hnd & Hsound & Hwl & Hcl).
      assert (∀ w, w ∈ push new wl ↔ w ∈ new ∨ w ∈ wl) as Hpush.
      { intros w. by rewrite push_perm, elem_of_app. }
      split_and!.
      * constructor; [|done]. intros Hin. apply Hsound in Hin as [Hin _].
        apply Hin. set_solver.
      * intros v [->|Hv]%elem_of_cons.
        { split; [done|]. exists x. split; [by left | apply rtc_refl]. }
        destruct (Hsound v Hv) as (Hnv & w & Hw & Hr).
        split; [set_solver|].
        apply Hpush in Hw as [Hw|Hw].
        -- exists x. split; [by left|].
           apply list_elem_of_filter in Hw as [_ Hw].
           by apply (rtc_l _ _ w).
        -- exists w. split; [by right | done].
      * intros w [->|Hw]%elem_of_cons; [right; by left|].
        destruct (Hwl w) as [Hv|Hv]; [apply Hpush; by right | | right; by right].
        apply elem_of_union in Hv as [->%elem_of_singleton|Hv]; [right; by left | by left].
      * intros u v [->|Hu]%elem_of_cons Huv.
        -- destruct (decide (v ∈ visited')) as [Hv|Hv].
           ++ apply elem_of_union in Hv as [->%elem_of_singleton|Hv];
                [right; by left | by left].
           ++ destruct (Hwl v) as [Hv'|Hv']; [|done|right; by right].
              apply Hpush. left. by apply list_elem_of_filter.
        -- destruct (Hcl u v Hu Huv) as [Hv|Hv]; [|right; by right].
           apply elem_of_union in Hv as [->%elem_of_singleton|Hv];
             [right; by left | by left].
Qed.

(** A whole traversal: the first iteration visits [start] without
    emitting it, the rest runs with [start] visited. *)
Lemma wl_traversal_spec fuel (out : list Node) :
  wl_loop push (S fuel) self start ∅ [start] = Some out →
  NoDup out ∧ ∀ v, v ∈ out ↔ v ≠ start ∧ reachable self start v.
Proof.
  simpl. rewrite decide_False by set_solver.
  rewrite decide_False by (intros Hn; by apply Hn).
  set (visited' := {[start]} ∪ ∅ : gset Node).
  set (new := filter (λ n, n ∉ visited') (getitem self start)).
  intros Hl.
  assert (start ∈ visited') as Hs by set_solver.
  destruct (wl_loop_spec _ _ _ _ Hs Hl) as (Hnd & Hsound & Hwl & Hcl).
  assert (∀ w, w ∈ push new [] ↔ w ∈ new) as Hpush.
  { intros w. rewrite push_perm, elem_of_app, elem_of_nil. tauto. }
  split; [done|]. intros v. split.
  - intros Hv. destruct (Hsound v Hv) as (Hnv & w & Hw & Hr).
    split; [set_solver|].
    apply Hpush, list_elem_of_filter in Hw as [_ Hw].
    by apply (rtc_l _ _ w).
  - intros [Hne Hr].
    assert (v = start ∨ v ∈ out) as [?|?]; [|done..].
    clear Hne. revert v Hr.
    refine (rtc_ind_r (λ v, v = start ∨ v ∈ out) start _ _); [by left|].
    intros u v Hr Huv IHr.
    assert (v ∈ visited' ∨ v ∈ out) as [Hv|Hv]; [|left; set_solver | by right].
    destruct IHr as [->|Hu]; [|by apply (Hcl u)].
    destruct (decide (v ∈ visited')) as [|Hv]; [by left|].
    apply Hwl, Hpush. by apply list_elem_of_filter.
Qed.

Lemma wl_traversal_total :
  is_Some (wl_loop push (S (edge_count (graph self))) self start ∅ [start]).
Proof. apply wl_loop_terminates. simpl. rewrite pending_empty. lia. Qed.

End worklist.

(** *** [dfs] and [bfs] produce a result *)

Lemma dfs_total self start : is_Some (dfs self start).
Proof.
  unfold dfs. rewrite dfs_loop_wl. by apply wl_traversal_total.
Qed.

Lemma bfs_total self start : is_Some (bfs self start).
Proof.
  unfold bfs. rewrite bfs_loop_wl. apply wl_traversal_total.
  intros new rest. apply Permutation_app_comm.
Qed.

Lemma dfs_spec self start out :
  dfs self start = Some out →
  NoDup out ∧ ∀ v, v ∈ out ↔ v ≠ start ∧ reachable self start v.
Proof.
  unfold dfs. rewrite dfs_loop_wl. by apply wl_traversal_spec.
Qed.

Lemma bfs_spec self start out :
  bfs self start = Some out →
  NoDup out ∧ ∀ v, v ∈ out ↔ v ≠ start ∧ reachable self start v.
Proof.
  unfold bfs. rewrite bfs_loop_wl. apply wl_traversal_spec.
  intros new rest. apply Permutation_app_comm.
Qed.

(** ** Paths *)

Lemma edge_add_node self n value u v :
  edge (add_node self n value) u v ↔ edge self u v.
Proof. unfold edge. by rewrite getitem_add_node. Qed.

Lemma edge_with_endpoints self a b u v :
  edge (with_endpoints self a b) u v ↔ edge self u v.
Proof. unfold edge. by rewrite with_endpoints_getitem. Qed.

Lemma rel_ext_rtc (R1 R2 : relation Node) x y :
  (∀ u v, R1 u v → R2 u v) → rtc R1 x y → rtc R2 x y.
Proof. intros HR. induction 1; [apply rtc_refl | eapply rtc_l; eauto]. Qed.

Lemma rel_ext_tc (R1 R2 : relation Node) x y :
  (∀ u v, R1 u v → R2 u v) → tc R1 x y → tc R2 x y.
Proof. intros HR. induction 1; [apply tc_once | eapply tc_l]; eauto. Qed.

Lemma reachable_with_endpoints self a b u v :
  reachable (with_endpoints self a b) u v ↔ reachable self u v.
Proof.
  split; apply rel_ext_rtc; intros ??; by rewrite edge_with_endpoints.
Qed.

Lemma path_with_endpoints self a b u v :
  path (with_endpoints self a b) u v ↔ path self u v.
Proof.
  split; apply rel_ext_tc; intros ??; by rewrite edge_with_endpoints.
Qed.

Lemma reachable_path self u v : u ≠ v → reachable self u v ↔ path self u v.
Proof.
  intros Hne. unfold reachable, path. rewrite rtc_tc. naive_solver.
Qed.

(** ** [_has_path] *)

Lemma has_path_self self x : has_path self x x = Some false.
Proof.
  unfold has_path. destruct (contains self x); simpl; [|done].
  destruct (bfs_total self x) as [out Hout]. rewrite Hout. simpl.
  apply bfs_spec in Hout as [_ Hout].
  rewrite bool_decide_eq_false_2; [done|]. intros Hx%Hout. by destruct Hx.
Qed.

Lemma has_path_distinct self a b :
  contains self a = true → a ≠ b →
  ∃ r, has_path self a b = Some r ∧ (r = true ↔ path self a b).
Proof.
  intros Hc Hne. unfold has_path. rewrite Hc. simpl.
  destruct (bfs_total self a) as [out Hout]. rewrite Hout. simpl.
  apply bfs_spec in Hout as [_ Hout].
  eexists. split; [done|].
  rewrite bool_decide_eq_true, Hout, reachable_path by done. naive_solver.
Qed.

(** ** [DAG.add_edge] *)

Lemma dag_add_edge_unfold self a b weight :
  dag_add_edge self a b weight =
  let s2 := with_endpoints self a b in
  match has_path s2 b a with
  | None => (s2, OutOfFuel)
  | Some true => (s2, Raise (ValueError a b))
  | Some false => (add_edge s2 a b weight, Ret ())
  end.
Proof.
  unfold dag_add_edge, with_endpoints, contains.
  destruct (dict_mem (graph self) a); simpl;
    by destruct (dict_mem _ b).
Qed.

Lemma add_edge_with_endpoints self a b weight :
  add_edge (with_endpoints self a b) a b weight = add_edge self a b weight.
Proof.
  assert (with_endpoints (with_endpoints self a b) a b = with_endpoints self a b) as Hi.
  { pose proof (proj2 (with_endpoints_contains self a b a) (or_introl eq_refl)) as Ha.
    pose proof (proj2 (with_endpoints_contains self a b b)
                  (or_intror (or_introl eq_refl))) as Hb.
    unfold contains in Ha, Hb.
    unfold with_endpoints at 1. by rewrite Ha, Hb. }
  unfold add_edge.
  fold (with_endpoints (with_endpoints self a b) a b). fold (with_endpoints self a b).
  by rewrite Hi.
Qed.

(** A self-loop is never rejected: the search from [x] never yields [x]. *)
Lemma dag_add_edge_self_loop self x weight :
  dag_add_edge self x x weight = (add_edge self x x weight, Ret ()).
Proof.
  rewrite dag_add_edge_unfold. simpl.
  by rewrite has_path_self, add_edge_with_endpoints.
Qed.

Lemma dag_add_edge_distinct self a b weight :
  a ≠ b →
  (path self b a ∧
   dag_add_edge self a b weight = (with_endpoints self a b, Raise (ValueError a b)))
  ∨ (¬ path self b a ∧
     dag_add_edge self a b weight = (add_edge self a b weight, Ret ())).
Proof.
  intros Hne. rewrite dag_add_edge_unfold. simpl.
  destruct (has_path_distinct (with_endpoints self a b) b a) as (r & -> & Hr).
  { apply with_endpoints_contains. auto. }
  { done. }
  rewrite path_with_endpoints in Hr.
  destruct r.
  - left. split; [by apply Hr | done].
  - right. split; [|by rewrite add_edge_with_endpoints].
    intros Hp%Hr. done.
Qed.

(** ** Invariants of graphs built through the API *)

Lemma occurrences_not_elem_of x (l : list Node) : x ∉ l → occurrences x l = 0.
Proof.
  unfold occurrences. induction l as [|y l IH]; [done|].
  intros [Hxy Hl]%not_elem_of_cons. rewrite filter_cons.
  rewrite decide_False by done. auto.
Qed.

Lemma occurrences_NoDup x (l : list Node) : NoDup l → x ∈ l → occurrences x l = 1.
Proof.
  unfold occurrences. induction 1 as [|y l Hy Hnd IH]; [by intros ?%elem_of_nil|].
  rewrite filter_cons. intros [->|Hx]%elem_of_cons.
  - rewrite decide_True by done. simpl. f_equal. by apply occurrences_not_elem_of.
  - rewrite decide_False by (intros ->; done). auto.
Qed.

Lemma occurrences_snoc x (l : list Node) : x ∉ l → occurrences x (l ++ [x]) = 1.
Proof.
  intros Hx. unfold occurrences. rewrite filter_app, length_app.
  fold (occurrences x l). rewrite occurrences_not_elem_of by done.
  rewrite filter_cons, decide_True by done. done.
Qed.

Lemma NoDup_getitem_add_node self n value :
  (∀ u, NoDup (getitem self u)) → ∀ u, NoDup (getitem (add_node self n value) u).
Proof. intros Hs u. by rewrite getitem_add_node. Qed.

Lemma NoDup_getitem_add_edge self a b weight :
  (∀ u, NoDup (getitem self u)) → ∀ u, NoDup (getitem (add_edge self a b weight) u).
Proof.
  intros Hs u. rewrite getitem_add_edge. repeat case_decide; try done.
  apply NoDup_app. split_and!; [done | | apply NoDup_singleton].
  intros x Hx ->%list_elem_of_singleton. done.
Qed.

Lemma getitem_init u : getitem (init : SortableDigraph Node Val Weight) u = [].
Proof. done. Qed.

Lemma base_run_ind (P : SortableDigraph Node Val Weight → Prop) :
  P init → (∀ s o, P s → P (base_step s o)) → ∀ ops, P (base_run ops).
Proof.
  intros H0 Hstep ops. unfold base_run. revert H0. generalize (@init Node _ _ Val Weight).
  induction ops as [|o ops IH]; intros s Hs; simpl; [done|].
  by apply IH, Hstep.
Qed.

Lemma dag_run_ind (P : SortableDigraph Node Val Weight → Prop) :
  P init → (∀ s o, P s → P (dag_step s o)) → ∀ ops, P (dag_run ops).
Proof.
  intros H0 Hstep ops. unfold dag_run. revert H0. generalize (@init Node _ _ Val Weight).
  induction ops as [|o ops IH]; intros s Hs; simpl; [done|].
  by apply IH, Hstep.
Qed.

Lemma NoDup_getitem_base_run (ops : list (op Node Val Weight)) u :
  NoDup (getitem (base_run ops) u).
Proof.
  revert u. apply (base_run_ind (λ s, ∀ u, NoDup (getitem s u))).
  - intros u. apply NoDup_nil_2.
  - intros s [n v|a b w] Hs; simpl.
    + by apply NoDup_getitem_add_node.
    + by apply NoDup_getitem_add_edge.
Qed.

Lemma add_edge_twice self a b weight weight' :
  graph (add_edge (add_edge self a b weight) a b weight') = graph (add_edge self a b weight).
Proof.
  set (s1 := add_edge self a b weight).
  assert (contains s1 a = true) as Ha by (apply contains_add_edge; auto).
  assert (contains s1 b = true) as Hb by (apply contains_add_edge; auto).
  assert (b ∈ getitem s1 a) as Hin.
  { unfold s1. rewrite getitem_add_edge, decide_True by done.
    case_decide; [done|]. apply elem_of_app. right. by left. }
  unfold contains in Ha, Hb. unfold getitem in Hin.
  unfold add_edge at 1. rewrite Ha, Hb. simpl. by rewrite decide_True.
Qed.

Lemma add_edge_once self a b weight :
  NoDup (getitem self a) →
  contains (add_edge self a b weight) a = true
  ∧ contains (add_edge self a b weight) b = true
  ∧ occurrences b (getitem (add_edge self a b weight) a) = 1.
Proof.
  intros Hnd. split_and!; [apply contains_add_edge; auto..|].
  rewrite getitem_add_edge, decide_True by done. case_decide.
  - by apply occurrences_NoDup.
  - by apply occurrences_snoc.
Qed.

Lemma edge_weights_add_edge_ne self a b weight a' b' :
  (∀ wt, weight = Some wt → (a', b') ≠ (a, b)) →
  edge_weights (add_edge self a' b' weight) !! (a, b) = edge_weights self !! (a, b).
Proof.
  intros Hne. unfold add_edge; simpl. destruct weight as [wt|].
  - rewrite lookup_insert_ne by eauto. by repeat case_match.
  - by repeat case_match.
Qed.

Lemma edge_weights_base_run (ops : list (op Node Val Weight)) a b :
  (∀ wt, AddEdge a b (Some wt) ∉ ops) → edge_weights (base_run ops) !! (a, b) = None.
Proof.
  unfold base_run. generalize (@init Node _ _ Val Weight)
    (eq_refl : edge_weights (@init Node _ _ Val Weight) !! (a, b) = None).
  induction ops as [|o ops IH]; intros s Hs Hops; simpl; [done|].
  apply IH.
  - destruct o as [n v|a' b' weight]; cbn [base_step]; [done|].
    rewrite edge_weights_add_edge_ne; [done|].
    intros wt -> [= -> ->]. apply (Hops wt). by left.
  - intros wt Hw. apply (Hops wt). by right.
Qed.

Lemma with_endpoints_edge_weights self a b :
  edge_weights (with_endpoints self a b) = edge_weights self.
Proof. unfold with_endpoints. by repeat case_match. Qed.

Lemma not_contains_getitem self node : contains self node = false → getitem self node = [].
Proof.
  unfold contains, dict_mem, getitem. by destruct (dict_get (graph self) node).
Qed.

Lemma not_contains_reachable self start v :
  contains self start = false → reachable self start v → v = start.
Proof.
  intros Hc Hr. apply rtc_inv in Hr as [->|(u & Hu & _)]; [done|].
  unfold edge in Hu. rewrite not_contains_getitem in Hu by done.
  by apply elem_of_nil in Hu.
Qed.

(** ** Breadth-first layering *)

Section bfs_levels.

Variables (self : SortableDigraph Node Val Weight) (start : Node).

Lemma level_up_fst lv (l : list Node) : (level_up lv <$> l).*1 = l.
Proof. induction l; simpl; [done | by f_equal]. Qed.

Lemma bfs_trace_loop_erase fuel visited (queue : list (Node * nat)) :
  (λ r, r.1.*1) <$> bfs_trace_loop fuel self start visited queue
  = bfs_loop fuel self start visited queue.*1.
Proof.
  revert visited queue. induction fuel as [|fuel IH]; intros visited queue;
    destruct queue as [|[x lv] queue]; simpl; try done.
  destruct (decide (x ∈ visited)); [apply IH|].
  rewrite bfs_push_filter.
  set (new := filter (λ n, n ∉ {[x]} ∪ visited) (getitem self x)).
  change (list_fmap _ _ fst queue) with (queue.*1).
  replace (queue.*1 ++ new) with ((queue ++ (level_up lv <$> new)).*1)
    by by rewrite fmap_app, level_up_fst.
  rewrite <- IH.
  destruct (bfs_trace_loop _ _ _ _ _) as [[out enq]|]; simpl; [|by case_decide].
  by case_decide.
Qed.

Lemma bfs_trace_erase :
  (λ r, r.1.*1) <$> bfs_trace self start = bfs self start.
Proof.
  unfold bfs_trace, bfs.
  rewrite <- (bfs_trace_loop_erase _ _ [(start, 0)]).
  by destruct (bfs_trace_loop _ _ _ _ _) as [[out enq]|].
Qed.

(** The emitted sequence is the enqueue sequence without repetitions and
    without [start]. *)
Lemma bfs_trace_loop_order fuel visited (queue out : list (Node * nat)) enq :
  bfs_trace_loop fuel self start visited queue = Some (out, enq) →
  out.*1 = filter (λ n, n ≠ start) (first_occurrences visited (queue.*1 ++ enq)).
Proof.
  revert visited queue out enq.
  induction fuel as [|fuel IH]; intros visited queue out enq;
    destruct queue as [|[x lv] queue]; csimpl; try done.
  - by intros [= <- <-].
  - by intros [= <- <-].
  - destruct (decide (x ∈ visited)) as [Hx|Hx]; [apply IH|].
    destruct (bfs_trace_loop _ _ _ _ _) as [[out' enq']|] eqn:Hl; [|done].
    intros [= <- <-]. apply IH in Hl.
    rewrite fmap_app, level_up_fst, <- app_assoc in Hl.
    rewrite filter_cons. case_decide; csimpl; by rewrite Hl.
Qed.

Lemma StronglySorted_constant (c : nat) (l : list Node) :
  StronglySorted le ((level_up c <$> l).*2).
Proof.
  induction l as [|x l IH]; simpl; [constructor|].
  apply StronglySorted_cons. split; [|done].
  clear IH. induction l; simpl; constructor; [lia | done].
Qed.

Lemma trace_inv_init : trace_inv self start 0 ∅ [(start, 0)].
Proof.
  unfold trace_inv; simpl. split_and!.
  - repeat constructor.
  - repeat constructor.
  - intros w l [= -> ->]%list_elem_of_singleton. constructor.
  - intros w' w Hw. by apply not_elem_of_empty in Hw.
  - intros; lia.
  - right. by left.
Qed.

Lemma trace_inv_advance h visited x (rest : list (Node * nat)) :
  trace_inv self start h visited ((x, S h) :: rest) →
  trace_inv self start (S h) visited ((x, S h) :: rest).
Proof.
  intros (Hsort & Hlv & Hreach & Hsucc & Hnear & Hstart).
  assert (∀ w l, (w, l) ∈ (x, S h) :: rest → S h ≤ l) as Hdeep.
  { simpl in Hsort. apply StronglySorted_cons in Hsort as [Hle _].
    rewrite Forall_forall in Hle.
    intros w l [[= -> ->]|Hin]%elem_of_cons; [done|].
    apply Hle. by apply (list_elem_of_fmap_2 snd _ (w, l)). }
  split_and!; try done.
  - apply Forall_forall. intros l [[w l'] [-> Hin]]%list_elem_of_fmap.
    rewrite Forall_forall in Hlv.
    specialize (Hlv l' ltac:(by apply (list_elem_of_fmap_2 snd _ (w, l')))).
    specialize (Hdeep _ _ Hin). simpl in *. lia.
  - intros w k Hk Hlt.
    destruct (decide (k < h)) as [|Hkh]; [by eapply Hnear|].
    assert (k = h) as -> by lia. clear Hlt Hkh.
    destruct h as [|h].
    + inversion Hk; subst.
      destruct Hstart as [|Hq]; [done|]. apply Hdeep in Hq. lia.
    + apply nsteps_inv_r in Hk as (w' & Hw' & Hedge).
      assert (w' ∈ visited) as Hv by (eapply Hnear; [done | lia]).
      destruct (Hsucc w' w Hv Hedge) as [|(l & Hq & Hl)]; [done|].
      apply Hdeep in Hq. specialize (Hl _ Hw'). lia.
Qed.

Lemma trace_inv_skip h visited x lv (rest : list (Node * nat)) :
  trace_inv self start h visited ((x, lv) :: rest) → x ∈ visited →
  trace_inv self start h visited rest.
Proof.
  intros (Hsort & Hlv & Hreach & Hsucc & Hnear & Hstart) Hx.
  simpl in Hsort, Hlv. apply StronglySorted_cons in Hsort as [_ Hsort].
  apply Forall_cons in Hlv as [_ Hlv].
  split_and!; try done.
  - intros w l Hin. apply Hreach. by right.
  - intros w' w Hw' Hedge.
    destruct (Hsucc w' w Hw' Hedge) as [|(l & Hq & Hl)]; [by left|].
    apply elem_of_cons in Hq as [[= -> ->]|Hq]; [by left|].
    right. by exists l.
  - destruct Hstart as [|[[= -> _]|Hq]%elem_of_cons]; auto.
Qed.

Lemma trace_inv_visit h visited x (rest : list (Node * nat)) :
  trace_inv self start h visited ((x, h) :: rest) → x ∉ visited →
  is_dist self start x h
  ∧ trace_inv self start h ({[x]} ∪ visited)
      (rest ++ (level_up h <$> filter (λ n, n ∉ {[x]} ∪ visited) (getitem self x))).
Proof.
  intros (Hsort & Hlv & Hreach & Hsucc & Hnear & Hstart) Hx.
  assert (is_dist self start x h) as Hdist.
  { split; [apply Hreach; by left|].
    intros k Hk. destruct (decide (h ≤ k)) as [|Hlt]; [done|].
    destruct Hx. eapply Hnear; [done | lia]. }
  split; [done|].
  simpl in Hsort, Hlv. apply StronglySorted_cons in Hsort as [_ Hsort].
  apply Forall_cons in Hlv as [_ Hlv].
  set (new := filter (λ n, n ∉ {[x]} ∪ visited) (getitem self x)).
  split_and!.
  - rewrite fmap_app. apply StronglySorted_app. split_and!;
      [|done|apply StronglySorted_constant].
    intros l1 l2 Hl1 [[w l] [-> [w' [-> _]]%list_elem_of_fmap]]%list_elem_of_fmap.
    rewrite Forall_forall in Hlv. specialize (Hlv _ Hl1). simpl. lia.
  - rewrite fmap_app. apply Forall_app. split; [done|].
    apply Forall_forall.
    intros l [[w l'] [-> [w' [[= -> ->] _]]%list_elem_of_fmap]]%list_elem_of_fmap.
    simpl. lia.
  - intros w l [Hin|[w' [[= -> ->] Hin]]%list_elem_of_fmap]%elem_of_app.
    + apply Hreach. by right.
    + apply list_elem_of_filter in Hin as [_ Hin].
      eapply nsteps_r; [apply Hdist | done].
  - intros w' w Hw' Hedge.
    destruct (decide (w ∈ {[x]} ∪ visited)) as [|Hw]; [by left|].
    right. apply elem_of_union in Hw' as [->%elem_of_singleton|Hw'].
    + exists (S h). split.
      * apply elem_of_app. right. apply (list_elem_of_fmap_2 (level_up h)).
        by apply list_elem_of_filter.
      * intros k Hk. destruct Hdist as [_ Hmin]. specialize (Hmin _ Hk). lia.
    + destruct (Hsucc w' w Hw' Hedge) as [|(l & Hq & Hl)]; [set_solver|].
      apply elem_of_cons in Hq as [[= -> ->]|Hq]; [set_solver|].
      exists l. split; [|done]. apply elem_of_app. by left.
  - intros w k Hk Hlt. apply elem_of_union. right. by eapply Hnear.
  - destruct Hstart as [|[[= -> _]|Hq]%elem_of_cons].
    + left. set_solver.
    + left. set_solver.
    + right. apply elem_of_app. by left.
Qed.

Lemma bfs_trace_loop_levels fuel h visited (queue out : list (Node * nat)) enq :
  trace_inv self start h visited queue →
  bfs_trace_loop fuel self start visited queue = Some (out, enq) →
  Forall (λ e, is_dist self start e.1 e.2) out
  ∧ StronglySorted le out.*2
  ∧ Forall (le h) out.*2.
Proof.
  revert h visited queue out enq.
  induction fuel as [|fuel IH]; intros h visited queue out enq Hinv;
    destruct queue as [|[x lv] rest]; simpl; try done.
  - intros [= <- <-]. repeat constructor.
  - intros [= <- <-]. repeat constructor.
  - assert (h ≤ lv ∧ trace_inv self start lv visited ((x, lv) :: rest)) as [Hh Hinv'].
    { pose proof Hinv as (_ & Hlv & _). simpl in Hlv.
      apply Forall_cons in Hlv as [Hlv _].
      destruct (decide (lv = h)) as [->|]; [done|].
      assert (lv = S h) as -> by lia. split; [lia|].
      by apply trace_inv_advance. }
    clear Hinv.
    assert (∀ l : list nat, Forall (le lv) l → Forall (le h) l) as Hweak.
    { intros l Hl. eapply Forall_impl; [exact Hl | intros; simpl in *; lia]. }
    destruct (decide (x ∈ visited)) as [Hx|Hx].
    + intros Hl. eapply trace_inv_skip in Hinv'; [|done].
      destruct (IH _ _ _ _ _ Hinv' Hl) as (? & ? & ?). auto.
    + apply trace_inv_visit in Hinv' as [Hdist Hinv']; [|done].
      destruct (bfs_trace_loop _ _ _ _ _) as [[out' enq']|] eqn:Hl; [|done].
      intros [= <- <-].
      destruct (IH _ _ _ _ _ Hinv' Hl) as (Hd & Hs & Hb).
      case_decide; [|auto].
      split_and!.
      * by constructor.
      * simpl. by apply StronglySorted_cons.
      * simpl. constructor; [done | auto].
Qed.

Lemma is_dist_unique v (d d' : nat) :
  is_dist self start v d → is_dist self start v d' → d = d'.
Proof. intros [H1 H2] [H3 H4]. apply H2 in H3. apply H4 in H1. lia. Qed.

Lemma levels_before (out : list (Node * nat)) u v du dv :
  Forall (λ e, is_dist self start e.1 e.2) out → StronglySorted le out.*2 →
  before out.*1 u v →
  is_dist self start u du → is_dist self start v dv → du ≤ dv.
Proof.
  intros Hd Hs (l1 & l2 & l3 & Heq) Hu Hv.
  apply fmap_app_inv in Heq as (o1 & o2 & -> & Heq & ->).
  symmetry in Heq.
  apply fmap_cons_inv in Heq as ([u' lu] & o3 & -> & Heq & ->).
  symmetry in Heq.
  apply fmap_app_inv in Heq as (o4 & o5 & -> & Heq & ->).
  symmetry in Heq.
  apply fmap_cons_inv in Heq as ([v' lv] & o6 & -> & -> & ->).
  simpl in *.
  apply Forall_app in Hd as [_ Hd]. apply Forall_cons in Hd as [Hu' Hd].
  apply Forall_app in Hd as [_ Hd]. apply Forall_cons in Hd as [Hv' _].
  simpl in *.
  rewrite (is_dist_unique _ _ _ Hu Hu'), (is_dist_unique _ _ _ Hv Hv').
  rewrite fmap_app, fmap_cons, fmap_app, fmap_cons in Hs. simpl in Hs.
  apply StronglySorted_app_1_r, StronglySorted_cons in Hs as [Hs _].
  apply Forall_app in Hs as [_ Hs]. by apply Forall_cons in Hs as [? _].
Qed.

End bfs_levels.

(** ** What the cycle check of [DAG.add_edge] preserves *)

Lemma edge_add_edge self a b weight u v :
  edge (add_edge self a b weight) u v ↔ edge self u v ∨ (u = a ∧ v = b).
Proof.
  unfold edge. rewrite getitem_add_edge.
  destruct (decide (u = a)) as [->|Hu].
  - destruct (decide (b ∈ getitem self a)) as [Hb|Hb].
    + split; [auto | intros [|[_ ->]]; done].
    + rewrite elem_of_app, list_elem_of_singleton. naive_solver.
  - naive_solver.
Qed.

Lemma path_add_edge self a b weight u v :
  path (add_edge self a b weight) u v →
  path self u v ∨ (reachable self u a ∧ reachable self b v).
Proof.
  unfold path, reachable. induction 1 as [u v He|u w v He Hp IH];
    apply edge_add_edge in He as [He|[-> ->]].
  - left. by apply tc_once.
  - right. split; apply rtc_refl.
  - destruct IH as [IH|[IH1 IH2]].
    + left. by eapply tc_l.
    + right. split; [by eapply rtc_l | done].
  - right. split; [apply rtc_refl|].
    destruct IH as [IH|[_ IH]]; [by apply tc_rtc | done].
Qed.

Lemma no_proper_cycle_add_node self n value :
  no_proper_cycle self → no_proper_cycle (add_node self n value).
Proof.
  intros Hs x y Hne Hxy Hyx. apply (Hs x y Hne).
  - eapply rel_ext_tc; [|exact Hxy]. intros ??. by rewrite edge_add_node.
  - eapply rel_ext_tc; [|exact Hyx]. intros ??. by rewrite edge_add_node.
Qed.

Lemma no_proper_cycle_with_endpoints self a b :
  no_proper_cycle self → no_proper_cycle (with_endpoints self a b).
Proof.
  intros Hs x y Hne Hxy Hyx. apply (Hs x y Hne); by eapply path_with_endpoints.
Qed.

Lemma no_proper_cycle_self_loop self a weight :
  no_proper_cycle self → no_proper_cycle (add_edge self a a weight).
Proof.
  assert (∀ x y, x ≠ y → path (add_edge self a a weight) x y → path self x y) as Hold.
  { intros x y Hne [Hp|[H1 H2]]%path_add_edge; [done|].
    apply reachable_path; [done|]. by etrans. }
  intros Hs x y Hne Hxy Hyx. apply (Hs x y Hne); by apply Hold.
Qed.

Lemma no_proper_cycle_add_edge self a b weight :
  a ≠ b → ¬ path self b a →
  no_proper_cycle self → no_proper_cycle (add_edge self a b weight).
Proof.
  intros Hab Hba Hs x y Hne Hxy Hyx. apply Hba.
  apply path_add_edge in Hxy as [Hxy|[Hxa Hby]];
    apply path_add_edge in Hyx as [Hyx|[Hya Hbx]].
  - by destruct (Hs x y Hne).
  - eapply tc_rtc_l; [exact Hbx|]. by eapply tc_rtc_r.
  - eapply tc_rtc_l; [exact Hby|]. by eapply tc_rtc_r.
  - apply reachable_path; [done|]. unfold reachable. by etrans.
Qed.

Lemma no_proper_cycle_dag_add_edge self a b weight :
  no_proper_cycle self → no_proper_cycle (dag_add_edge self a b weight).1.
Proof.
  intros Hs. destruct (decide (a = b)) as [->|Hne].
  - rewrite dag_add_edge_self_loop. by apply no_proper_cycle_self_loop.
  - destruct (dag_add_edge_distinct self a b weight Hne) as [[Hp ->]|[Hp ->]]; simpl.
    + by apply no_proper_cycle_with_endpoints.
    + by apply no_proper_cycle_add_edge.
Qed.

(** Every [DAG] object: cycles, if any, are made of self-loops only. *)
Lemma dag_run_no_proper_cycle (ops : list (op Node Val Weight)) :
  no_proper_cycle (dag_run ops).
Proof.
  apply dag_run_ind.
  - intros x y Hne Hxy _. apply tc_rtc, rtc_inv in Hxy as [->|(z & Hz & _)]; [done|].
    by apply elem_of_nil in Hz.
  - intros s [n value|a b weight] Hs; simpl.
    + by apply no_proper_cycle_add_node.
    + by apply no_proper_cycle_dag_add_edge.
Qed.

Lemma no_self_loop_dag_step self (o : op Node Val Weight) :
  (∀ x weight, o ≠ AddEdge x x weight) →
  no_self_loop self → no_self_loop (dag_step self o).
Proof.
  intros Ho Hs x. destruct o as [n value|a b weight]; simpl.
  - rewrite edge_add_node. apply Hs.
  - assert (a ≠ b) as Hne by (intros ->; by eapply Ho).
    destruct (dag_add_edge_distinct self a b weight Hne) as [[Hp ->]|[Hp ->]]; simpl.
    + rewrite edge_with_endpoints. apply Hs.
    + rewrite edge_add_edge. intros [He|[-> ->]]; [by eapply Hs | done].
Qed.

Lemma acyclic_iff self : acyclic self ↔ no_proper_cycle self ∧ no_self_loop self.
Proof.
  split.
  - intros Ha. split.
    + intros x y _ Hxy Hyx. apply (Ha x). by etrans.
    + intros x Hx. apply (Ha x). by apply tc_once.
  - intros [Hp Hl] x Hx.
    assert (∃ y, edge self x y ∧ reachable self y x) as (y & Hxy & Hyx).
    { inversion Hx as [? ? He|? y ? He Hp']; subst.
      - exists x. split; [done | apply rtc_refl].
      - exists y. split; [done | by apply tc_rtc]. }
    destruct (decide (x = y)) as [<-|Hne]; [by apply (Hl x)|].
    apply (Hp x y Hne); [by apply tc_once|].
    apply reachable_path; [|done]. by intros ->.
Qed.

(** Without [add_edge(x, x)] calls the object is acyclic. *)
Lemma dag_run_acyclic (ops : list (op Node Val Weight)) :
  (∀ x weight, AddEdge x x weight ∉ ops) → acyclic (dag_run ops).
Proof.
  intros Hops. apply acyclic_iff. split; [apply dag_run_no_proper_cycle|].
  revert Hops. unfold dag_run. generalize (@init Node _ _ Val Weight)
    ((λ x H, proj1 (elem_of_nil x) H) : no_self_loop (@init Node _ _ Val Weight)).
  induction ops as [|o ops IH]; intros s Hs Hops; simpl; [done|].
  apply IH.
  - apply no_self_loop_dag_step; [|done].
    intros x weight ->. apply (Hops x weight). by left.
  - intros x weight Hin. apply (Hops x weight). by right.
Qed.

(** ** Topological sort *)

Lemma occurrences_cons x y (l : list Node) :
  occurrences x (y :: l) = (if decide (y = x) then 1 else 0) + occurrences x l.
Proof. unfold occurrences. rewrite filter_cons. by case_decide. Qed.

Lemma occurrences_elem_of x (l : list Node) : x ∈ l → 0 < occurrences x l.
Proof.
  intros Hx. destruct (occurrences x l) eqn:E; [|lia].
  induction l as [|y l IH]; [by apply elem_of_nil in Hx|].
  rewrite occurrences_cons in E. case_decide; [done|].
  apply elem_of_cons in Hx as [->|Hx]; [done | auto].
Qed.

Lemma count_neighbors_spec (ns : list Node) (deg : gmap Node Z) :
  (∀ n, n ∈ ns → is_Some (deg !! n)) →
  ∃ deg', count_neighbors ns deg = Ret deg'
    ∧ ∀ v, deg' !! v = (λ d, (d + Z.of_nat (occurrences v ns))%Z) <$> deg !! v.
Proof.
  revert deg. induction ns as [|n ns IH]; intros deg Hdom; simpl.
  - exists deg. split; [done|]. intros v. destruct (deg !! v); simpl; [|done].
    f_equal. unfold occurrences. simpl. lia.
  - destruct (Hdom n ltac:(by left)) as [d Hd]. rewrite Hd.
    destruct (IH (<[n := (d + 1)%Z]> deg)) as (deg' & -> & Hdeg').
    { intros m Hm. apply lookup_insert_is_Some'. right. apply Hdom. by right. }
    exists deg'. split; [done|]. intros v. rewrite Hdeg', occurrences_cons.
    destruct (decide (n = v)) as [->|Hne].
    + rewrite lookup_insert_eq, Hd. simpl. f_equal. lia.
    + rewrite lookup_insert_ne by done. destruct (deg !! v); simpl; [|done].
      f_equal.
Qed.

Lemma count_items_spec (items : list (Node * list Node)) (deg : gmap Node Z) :
  (∀ e n, e ∈ items → n ∈ e.2 → is_Some (deg !! n)) →
  ∃ deg', count_items items deg = Ret deg'
    ∧ ∀ v, deg' !! v = (λ d, (d + Z.of_nat (indeg_rem items [] v))%Z) <$> deg !! v.
Proof.
  revert deg. induction items as [|[k ns] items IH]; intros deg Hdom; simpl.
  - exists deg. split; [done|]. intros v. destruct (deg !! v); simpl; [|done].
    f_equal. unfold indeg_rem. simpl. lia.
  - destruct (count_neighbors_spec ns deg) as (deg1 & -> & Hdeg1).
    { intros n Hn. apply (Hdom (k, ns)); [by left | done]. }
    destruct (IH deg1) as (deg' & -> & Hdeg').
    { intros e n He Hn. rewrite Hdeg1. apply fmap_is_Some.
      apply (Hdom e); [by right | done]. }
    exists deg'. split; [done|]. intros v. rewrite Hdeg', Hdeg1.
    destruct (deg !! v); simpl; [|done]. f_equal.
    unfold indeg_rem. simpl. lia.
Qed.

Lemma relax_spec (ns : list Node) (deg : gmap Node Z) (queue : list Node) :
  NoDup ns → (∀ n, n ∈ ns → is_Some (deg !! n)) →
  ∃ deg', relax ns deg queue
          = Ret (deg', queue ++ filter (λ v, deg !! v = Some 1%Z) ns)
    ∧ ∀ v, deg' !! v = (λ d, (d - Z.of_nat (occurrences v ns))%Z) <$> deg !! v.
Proof.
  intros Hnd. revert deg queue.
  induction Hnd as [|n ns Hn Hnd IH]; intros deg queue Hdom; simpl.
  - exists deg. rewrite app_nil_r. split; [done|].
    intros v. destruct (deg !! v); simpl; [|done].
    f_equal. unfold occurrences. simpl. lia.
  - destruct (Hdom n ltac:(by left)) as [d Hd]. rewrite Hd.
    set (deg1 := <[n := (d - 1)%Z]> deg).
    destruct (IH deg1 (if decide ((d - 1)%Z = 0%Z) then queue ++ [n] else queue))
      as (deg' & -> & Hdeg').
    { intros m Hm. apply lookup_insert_is_Some'. right. apply Hdom. by right. }
    assert (∀ l : list Node, n ∉ l →
              filter (λ v, deg1 !! v = Some 1%Z) l
              = filter (λ v, deg !! v = Some 1%Z) l) as Hsame.
    { intros l. induction l as [|m l IHl]; [done|].
      intros [Hne Hl]%not_elem_of_cons.
      assert (deg1 !! m = deg !! m) as Hm
        by (unfold deg1; apply lookup_insert_ne; congruence).
      rewrite !filter_cons. simpl. by rewrite Hm, IHl. }
    rewrite Hsame by done.
    exists deg'. split.
    + rewrite filter_cons, Hd. f_equal. f_equal.
      destruct (decide ((d - 1)%Z = 0%Z)) as [Hz|Hz].
      * rewrite decide_True by (f_equal; lia). by rewrite <- app_assoc.
      * rewrite decide_False; [done|]. intros [= ->]. lia.
    + intros v. rewrite Hdeg', occurrences_cons. unfold deg1.
      destruct (decide (n = v)) as [->|Hne].
      * rewrite lookup_insert_eq, Hd. simpl. f_equal.
        rewrite occurrences_not_elem_of by done. lia.
      * rewrite lookup_insert_ne by done. destruct (deg !! v); simpl; [|done].
        f_equal.
Qed.

Lemma in_degree_init (g : list (Node * list Node)) v :
  (list_to_map ((λ e, (e.1, 0%Z)) <$> g) : gmap Node Z) !! v
  = if decide (v ∈ g.*1) then Some 0%Z else None.
Proof.
  induction g as [|[k ns] g IH].
  - apply lookup_empty.
  - rewrite !fmap_cons, list_to_map_cons. cbn [fst].
    destruct (decide (k = v)) as [->|Hne].
    + rewrite lookup_insert_eq. by rewrite decide_True by left.
    + rewrite lookup_insert_ne, IH by done.
      destruct (decide (v ∈ g.*1)) as [Hv|Hv].
      * by rewrite decide_True by by right.
      * rewrite decide_False; [done|]. intros [->|?]%elem_of_cons; done.
Qed.

(** *** Remaining in-degrees *)

Lemma indeg_rem_other (g : list (Node * list Node)) (done_ : list Node) x v :
  x ∉ g.*1 → indeg_rem g (done_ ++ [x]) v = indeg_rem g done_ v.
Proof.
  unfold indeg_rem. induction g as [|[k ns] g IH]; simpl; [done|].
  intros [Hne Hx]%not_elem_of_cons. rewrite IH by done. f_equal.
  destruct (decide (k ∈ done_)) as [Hk|Hk].
  - by rewrite decide_True by (apply elem_of_app; by left).
  - rewrite decide_False; [done|].
    intros [?| ->%list_elem_of_singleton]%elem_of_app; done.
Qed.

Lemma indeg_rem_visit (g : list (Node * list Node)) (done_ : list Node) x ns v :
  NoDup g.*1 → dict_get g x = Some ns → x ∉ done_ →
  indeg_rem g (done_ ++ [x]) v + occurrences v ns = indeg_rem g done_ v.
Proof.
  intros Hnd Hget Hx. induction g as [|[k ms] g IH]; simpl in *; [done|].
  apply NoDup_cons in Hnd as [Hk Hnd]. unfold indeg_rem in *. simpl.
  destruct (decide (k = x)) as [->|Hne].
  - injection Hget as ->.
    pose proof (indeg_rem_other g done_ x v Hk) as Ho. unfold indeg_rem in Ho.
    rewrite Ho. rewrite decide_True by (apply elem_of_app; right; by left).
    rewrite decide_False by done. lia.
  - specialize (IH Hnd Hget).
    destruct (decide (k ∈ done_)) as [Hkd|Hkd].
    + rewrite decide_True by (apply elem_of_app; by left). lia.
    + rewrite decide_False; [lia|].
      intros [?| ->%list_elem_of_singleton]%elem_of_app; done.
Qed.

Lemma indeg_rem_zero (g : list (Node * list Node)) (done_ : list Node) v k ms :
  indeg_rem g done_ v = 0 → (k, ms) ∈ g → v ∈ ms → k ∈ done_.
Proof.
  unfold indeg_rem. induction g as [|[k' ms'] g IH]; simpl.
  - intros _ Hin. by apply elem_of_nil in Hin.
  - intros Hz [[= -> ->]|Hin]%elem_of_cons Hv.
    + destruct (decide (k' ∈ done_)) as [|Hk]; [done|].
      apply occurrences_elem_of in Hv. lia.
    + apply IH; [lia | done..].
Qed.

Lemma indeg_rem_nonzero (g : list (Node * list Node)) (done_ : list Node) v :
  indeg_rem g done_ v ≠ 0 → ∃ k ms, (k, ms) ∈ g ∧ (k ∉ done_) ∧ v ∈ ms.
Proof.
  unfold indeg_rem. induction g as [|[k ms] g IH]; simpl; [done|].
  intros Hnz.
  destruct (decide ((k ∉ done_) ∧ v ∈ ms)) as [[Hk Hv]|Hno].
  - exists k, ms. split; [by left | done].
  - destruct IH as (k' & ms' & Hin & Hk' & Hv').
    + intros Hz. apply Hnz. rewrite Hz.
      destruct (decide (k ∈ done_)) as [|Hk]; [done|].
      rewrite occurrences_not_elem_of; [done|]. intros Hv. apply Hno. done.
    + exists k', ms'. split; [by right | done].
Qed.

Lemma dict_get_Some_NoDup (g : list (Node * list Node)) k ms :
  NoDup g.*1 → (k, ms) ∈ g → dict_get g k = Some ms.
Proof.
  induction g as [|[k' ms'] g IH]; simpl; [by intros _ ?%elem_of_nil|].
  intros [Hk Hnd]%NoDup_cons [[= -> ->]|Hin]%elem_of_cons.
  - by rewrite decide_True.
  - rewrite decide_False; [by apply IH|].
    intros ->. apply Hk. by apply (list_elem_of_fmap_2 fst _ (k, ms)).
Qed.

Lemma edge_dict_get self u v :
  edge self u v ↔ ∃ ms, dict_get (graph self) u = Some ms ∧ v ∈ ms.
Proof.
  unfold edge, getitem. destruct (dict_get (graph self) u) as [ms|]; simpl.
  - split; [eauto | by intros (? & [= <-] & ?)].
  - split; [by intros ?%elem_of_nil | by intros (? & ? & ?)].
Qed.

(** *** Chains in an acyclic graph *)

Lemma chain_path self x (l : list Node) y :
  chain self (x :: l) → y ∈ l → path self x y.
Proof.
  revert x. induction l as [|z l IH]; intros x Hc Hy; [by apply elem_of_nil in Hy|].
  destruct Hc as [Hxz Hc].
  apply elem_of_cons in Hy as [->|Hy]; [by apply tc_once|].
  eapply tc_l; [done|]. by apply IH.
Qed.

Lemma chain_NoDup self (l : list Node) : acyclic self → chain self l → NoDup l.
Proof.
  intros Ha. induction l as [|x l IH]; intros Hc; [constructor|].
  constructor.
  - intros Hx. apply (Ha x). by eapply chain_path.
  - apply IH. destruct l; [done | by destruct Hc].
Qed.

(** A finite set in which every member has a predecessor in the set is
    empty when the graph is acyclic. *)
Lemma acyclic_has_source self (P : Node → Prop) (universe : list Node) :
  acyclic self →
  (∀ v, P v → v ∈ universe) →
  (∀ v, P v → ∃ u, P u ∧ edge self u v) →
  ∀ v, ¬ P v.
Proof.
  intros Ha Hfin Hpred v Hv.
  assert (∀ m : nat, ∃ l, length l = S m ∧ chain self l ∧ Forall P l) as Hchains.
  { induction m as [|m (l & Hlen & Hc & HP)].
    - exists [v]. split_and!; [done | done | by constructor].
    - destruct l as [|w l]; [done|].
      destruct (Hpred w) as (u & Hu & Huw); [by apply Forall_cons in HP as [? _]|].
      exists (u :: w :: l). split_and!; [simpl in *; lia | done | by constructor]. }
  destruct (Hchains (length universe)) as (l & Hlen & Hc & HP).
  assert (l ⊆+ universe) as Hsub.
  { apply NoDup_submseteq; [by eapply chain_NoDup|].
    intros x Hx. apply Hfin. rewrite Forall_forall in HP. by apply HP. }
  apply submseteq_length in Hsub. lia.
Qed.

(** *** The main loop *)

Lemma topo_inv_step self deg x (queue result_ : list Node) :
  well_formed self → topo_inv self deg (x :: queue) result_ →
  ∃ ns deg' new,
    dict_get (graph self) x = Some ns
    ∧ relax ns deg queue = Ret (deg', queue ++ new)
    ∧ topo_inv self deg' (queue ++ new) (result_ ++ [x]).
Proof.
  intros (Hkeys & Hadj & Hclosed) (Hdeg & Hnd & Hzero & Horder).
  assert (x ∈ (graph self).*1 ∧ indeg_rem (graph self) result_ x = 0) as [Hxk Hx0].
  { apply Hzero. apply elem_of_app. right. by left. }
  assert (x ∉ result_) as Hxr.
  { apply NoDup_app in Hnd as (_ & Hdisj & _). intros Hx.
    apply (Hdisj x Hx). by left. }
  destruct (dict_get (graph self) x) as [ns|] eqn:Hget;
    [|by apply dict_get_None in Hget].
  assert (NoDup ns) as Hns.
  { specialize (Hadj x). unfold getitem in Hadj. by rewrite Hget in Hadj. }
  assert (∀ n, n ∈ ns → n ∈ (graph self).*1) as Hnk.
  { intros n Hn. apply dict_mem_true. apply (Hclosed x n).
    apply edge_dict_get. eauto. }
  destruct (relax_spec ns deg queue Hns) as (deg' & Hrelax & Hdeg').
  { intros n Hn. rewrite Hdeg, decide_True by auto. by eexists. }
  set (new := filter (λ v, deg !! v = Some 1%Z) ns) in *.
  exists ns, deg', new. split; [done|]. split; [done|].
  pose proof (λ v, indeg_rem_visit (graph self) result_ x ns v Hkeys Hget Hxr) as Hrem.
  assert (∀ v, v ∈ new ↔ v ∈ ns ∧ indeg_rem (graph self) result_ v = 1) as Hnew.
  { intros v. unfold new. rewrite list_elem_of_filter, Hdeg. split.
    - intros [Hd Hv]. split; [done|]. rewrite decide_True in Hd by auto.
      injection Hd. lia.
    - intros [Hv H1]. split; [|done]. rewrite decide_True by auto. by rewrite H1. }
  assert (∀ v, v ∈ ns → occurrences v ns = 1) as Hocc
    by (intros; by apply occurrences_NoDup).
  assert ((result_ ++ [x]) ++ queue ++ new = (result_ ++ x :: queue) ++ new) as Hshape
    by (by rewrite <- !app_assoc).
  split_and!.
  - intros v. rewrite Hdeg', Hdeg. case_decide; simpl; [|done].
    f_equal. specialize (Hrem v). lia.
  - rewrite Hshape. apply NoDup_app. split_and!; [done | | by apply NoDup_filter].
    intros v Hv [Hvn H1]%Hnew. apply Hzero in Hv as [_ H0]. lia.
  - intros v. rewrite Hshape, elem_of_app.
    rewrite Hzero, Hnew. specialize (Hrem v). split.
    + intros [[Hk H0]|[Hv H1]].
      * split; [done | lia].
      * split; [auto|]. specialize (Hocc v Hv). lia.
    + intros [Hk H0].
      destruct (decide (indeg_rem (graph self) result_ v = 0)) as [|Hnz]; [by left|].
      right. assert (v ∈ ns) as Hv.
      { destruct (decide (v ∈ ns)) as [|Hv]; [done|].
        apply occurrences_not_elem_of in Hv. lia. }
      split; [done|]. specialize (Hocc v Hv). lia.
  - intros r1 v r2 Heq u Huv.
    destruct r2 as [|y r2 _] using rev_ind.
    + apply app_inj_tail in Heq as [<- <-].
      apply edge_dict_get in Huv as (ms & Hu & Hv).
      eapply indeg_rem_zero; [exact Hx0 | by apply dict_get_elem_of | done].
    + rewrite app_comm_cons, app_assoc in Heq.
      apply app_inj_tail in Heq as [-> _]. by eapply Horder.
Qed.

Lemma top_sort_loop_spec self fuel deg (queue result_ : list Node) :
  well_formed self → topo_inv self deg queue result_ →
  length (graph self) ≤ fuel + length result_ →
  ∃ order deg', top_sort_loop fuel self deg queue result_ = Ret order
    ∧ topo_inv self deg' [] order.
Proof.
  intros Hwf. revert deg queue result_.
  induction fuel as [|fuel IH]; intros deg queue result_ Hinv Hfuel.
  - destruct queue as [|x queue]; [by exists result_, deg|].
    exfalso. pose proof Hinv as (_ & Hnd & Hzero & _).
    assert (result_ ++ x :: queue ⊆+ (graph self).*1) as Hsub.
    { apply NoDup_submseteq; [done|]. intros v Hv. by apply Hzero. }
    apply submseteq_length in Hsub.
    rewrite length_app, length_fmap in Hsub. simpl in *. lia.
  - destruct queue as [|x queue]; [by exists result_, deg|].
    destruct (topo_inv_step self deg x queue result_ Hwf Hinv)
      as (ns & deg' & new & Hget & Hrelax & Hinv').
    simpl. rewrite Hget, Hrelax. apply (IH _ _ _ Hinv').
    rewrite length_app. simpl. lia.
Qed.

(** Kahn's algorithm on a well-formed acyclic graph: the result is a
    rearrangement of the keys in which every edge points forward. *)
Lemma top_sort_correct self :
  well_formed self → acyclic self →
  ∃ order, top_sort self = Ret order
    ∧ order ≡ₚ (graph self).*1
    ∧ NoDup order
    ∧ ∀ u v, edge self u v → before order u v.
Proof.
  intros Hwf Ha. pose proof Hwf as (Hkeys & Hadj & Hclosed).
  unfold top_sort.
  destruct (count_items_spec (graph self)
              (list_to_map ((λ e, (e.1, 0%Z)) <$> graph self)))
    as (deg & -> & Hdeg).
  { intros [k ms] n He Hn. rewrite in_degree_init, decide_True; [by eexists|].
    apply dict_mem_true. apply (Hclosed k n). apply edge_dict_get.
    exists ms. split; [by apply dict_get_Some_NoDup | done]. }
  assert (∀ v, deg !! v = if decide (v ∈ (graph self).*1)
                          then Some (Z.of_nat (indeg_rem (graph self) [] v))
                          else None) as Hdeg0.
  { intros v. rewrite Hdeg, in_degree_init. case_decide; simpl; [|done].
    f_equal. }
  set (queue := filter (λ node, deg !! node = Some 0%Z) (graph self).*1).
  destruct (top_sort_loop_spec self (length (graph self)) deg queue [])
    as (order & deg' & -> & (_ & Hnd & Hzero & Horder)); [done | | simpl; lia |].
  { split_and!; [done | by apply NoDup_filter | | ].
    - intros v. simpl. unfold queue. rewrite list_elem_of_filter, Hdeg0. split.
      + intros [Hd Hv]. split; [done|]. rewrite decide_True in Hd by done.
        injection Hd. lia.
      + intros [Hv H0]. split; [|done]. rewrite decide_True by done. by rewrite H0.
    - intros r1 v r2 Heq. by destruct r1. }
  rewrite app_nil_r in Hnd.
  assert (∀ v, v ∈ order ↔ v ∈ (graph self).*1) as Hall.
  { intros v. split.
    - intros Hv. apply (Hzero v). by rewrite app_nil_r.
    - intros Hv. destruct (decide (v ∈ order)) as [|Hno]; [done|]. exfalso.
      apply (acyclic_has_source self
               (λ v, v ∈ (graph self).*1 ∧ v ∉ order) (graph self).*1 Ha)
        with (v := v); [by intros ? [? _] | | done].
      clear v Hv Hno. intros v [Hv Hno].
      destruct (indeg_rem_nonzero (graph self) order v) as (k & ms & Hin & Hk & Hvm).
      { intros H0. apply Hno. rewrite <- (app_nil_r order). by apply Hzero. }
      exists k. split_and!; [|done|].
      + by apply (list_elem_of_fmap_2 fst _ (k, ms)).
      + apply edge_dict_get. exists ms. split; [by apply dict_get_Some_NoDup | done]. }
  exists order. split_and!; [done | by apply NoDup_Permutation | done |].
  intros u v Huv.
  assert (v ∈ order) as Hv.
  { apply Hall, dict_mem_true. by apply (Hclosed u v). }
  apply list_elem_of_split in Hv as (r1 & r2 & ->).
  specialize (Horder r1 v r2 eq_refl u Huv).
  apply list_elem_of_split in Horder as (l1 & l2 & ->).
  exists l1, l2, r2. by rewrite <- app_assoc.
Qed.

(** *** [top_sort] finishes on every graph *)

Lemma filter_length_mono (P Q : Node → Prop)
    `{!∀ x, Decision (P x), !∀ x, Decision (Q x)} (l : list Node) :
  (∀ x, x ∈ l → P x → Q x) → length (filter P l) ≤ length (filter Q l).
Proof.
  induction l as [|y l IH]; intros HPQ; [done|].
  rewrite !filter_cons.
  assert (length (filter P l) ≤ length (filter Q l)) as Hl
    by (apply IH; intros x Hx; apply HPQ; by right).
  destruct (decide (P y)) as [HP|HP].
  - rewrite decide_True by (apply HPQ; [by left | done]). simpl. lia.
  - destruct (decide (Q y)); simpl; lia.
Qed.

Lemma filter_length_strict (P Q : Node → Prop)
    `{!∀ x, Decision (P x), !∀ x, Decision (Q x)} (l : list Node) y :
  (∀ x, x ∈ l → P x → Q x) → y ∈ l → Q y → ¬ P y →
  length (filter P l) < length (filter Q l).
Proof.
  induction l as [|z l IH]; intros HPQ Hy HQ HP; [by apply elem_of_nil in Hy|].
  rewrite !filter_cons.
  assert (length (filter P l) ≤ length (filter Q l)) as Hl
    by (apply filter_length_mono; intros x Hx; apply HPQ; by right).
  apply elem_of_cons in Hy as [<-|Hy].
  - rewrite decide_False, decide_True by done. simpl. lia.
  - assert (length (filter P l) < length (filter Q l)) as Hlt
      by (apply IH; [intros x Hx; apply HPQ; by right | done..]).
    destruct (decide (P z)) as [HPz|HPz].
    + rewrite decide_True by (apply HPQ; [by left | done]). simpl. lia.
    + destruct (decide (Q z)); simpl; lia.
Qed.

Lemma filter_length_disjoint (P Q : Node → Prop)
    `{!∀ x, Decision (P x), !∀ x, Decision (Q x)} (l : list Node) :
  (∀ x, P x → Q x → False) → length (filter P l) + length (filter Q l) ≤ length l.
Proof.
  intros Hdisj. induction l as [|y l IH]; [done|].
  rewrite !filter_cons. destruct (decide (P y)) as [HP|HP].
  - rewrite decide_False by (intros ?; by eapply Hdisj). simpl. lia.
  - destruct (decide (Q y)); simpl; lia.
Qed.

Lemma count_neighbors_total (ns : list Node) (deg : gmap Node Z) :
  match count_neighbors ns deg with
  | Ret deg' => ∀ n, is_Some (deg' !! n) → is_Some (deg !! n)
  | Raise _ => True
  | OutOfFuel => False
  end.
Proof.
  revert deg. induction ns as [|m ns IH]; intros deg; simpl; [done|].
  destruct (deg !! m) as [d|] eqn:Hd; [|done].
  specialize (IH (<[m := (d + 1)%Z]> deg)).
  destruct (count_neighbors ns _) as [deg'| |]; [|done..].
  intros n Hn%IH. apply lookup_insert_is_Some' in Hn as [->|Hn]; [by eexists | done].
Qed.

Lemma count_items_total (items : list (Node * list Node)) (deg : gmap Node Z) :
  match count_items items deg with
  | Ret deg' => ∀ n, is_Some (deg' !! n) → is_Some (deg !! n)
  | Raise _ => True
  | OutOfFuel => False
  end.
Proof.
  revert deg. induction items as [|[k ns] items IH]; intros deg; simpl; [done|].
  pose proof (count_neighbors_total ns deg) as Hn.
  destruct (count_neighbors ns deg) as [deg1| |]; [|done..].
  specialize (IH deg1). destruct (count_items items deg1) as [deg'| |]; [|done..].
  auto.
Qed.

Lemma relax_measure (keys ns : list Node) (deg : gmap Node Z) (queue : list Node) :
  (∀ n, is_Some (deg !! n) → n ∈ keys) →
  match relax ns deg queue with
  | Ret (deg', queue') =>
      length queue' + positive_keys deg' keys ≤ length queue + positive_keys deg keys
      ∧ ∀ n, is_Some (deg' !! n) → n ∈ keys
  | Raise _ => True
  | OutOfFuel => False
  end.
Proof.
  revert deg queue. induction ns as [|m ns IH]; intros deg queue Hdom; simpl; [done|].
  destruct (deg !! m) as [d|] eqn:Hd; [|done].
  set (deg1 := <[m := (d - 1)%Z]> deg).
  set (queue1 := if decide ((d - 1)%Z = 0%Z) then queue ++ [m] else queue).
  assert (m ∈ keys) as Hm by (apply Hdom; by eexists).
  assert (∀ n, is_Some (deg1 !! n) → n ∈ keys) as Hdom1.
  { intros n [->|Hn]%lookup_insert_is_Some'; auto. }
  assert (length queue1 + positive_keys deg1 keys
          ≤ length queue + positive_keys deg keys) as Hstep.
  { assert (∀ x, x ∈ keys → (0 < default 0 (deg1 !! x))%Z →
                 (0 < default 0 (deg !! x))%Z) as Hmono.
    { intros x _. unfold deg1. destruct (decide (m = x)) as [->|Hne].
      - rewrite lookup_insert_eq, Hd. simpl. lia.
      - by rewrite lookup_insert_ne. }
    unfold queue1, positive_keys. destruct (decide ((d - 1)%Z = 0%Z)) as [Hz|Hz].
    - rewrite length_app. simpl.
      assert (length (filter (λ k, (0 < default 0 (deg1 !! k))%Z) keys)
              < length (filter (λ k, (0 < default 0 (deg !! k))%Z) keys)) as Hlt.
      { apply (filter_length_strict _ _ keys m); [exact Hmono | done | |].
        - rewrite Hd. simpl. lia.
        - unfold deg1. rewrite lookup_insert_eq. simpl. lia. }
      lia.
    - pose proof (filter_length_mono _ _ keys Hmono). lia. }
  specialize (IH deg1 queue1 Hdom1).
  destruct (relax ns deg1 queue1) as [[deg' queue']| |]; [|done..].
  destruct IH as [Hle Hdom']. split; [lia | done].
Qed.

Lemma top_sort_loop_total self fuel (deg : gmap Node Z) (queue result_ : list Node) :
  (∀ n, is_Some (deg !! n) → n ∈ (graph self).*1) →
  length queue + positive_keys deg (graph self).*1 ≤ fuel →
  top_sort_loop fuel self deg queue result_ ≠ OutOfFuel.
Proof.
  revert deg queue result_.
  induction fuel as [|fuel IH]; intros deg queue result_ Hdom Hfuel;
    destruct queue as [|x queue]; simpl in *; try done; [lia|].
  destruct (dict_get (graph self) x) as [ns|]; [|done].
  pose proof (relax_measure (graph self).*1 ns deg queue Hdom) as Hr.
  destruct (relax ns deg queue) as [[deg' queue']| |]; [|done..].
  destruct Hr as [Hle Hdom']. apply IH; [done | lia].
Qed.

(** The fuel [top_sort] passes to its main loop is enough on every graph,
    well formed or not. *)
Lemma top_sort_total self : top_sort self ≠ OutOfFuel.
Proof.
  unfold top_sort.
  pose proof (count_items_total (graph self)
                (list_to_map ((λ e, (e.1, 0%Z)) <$> graph self))) as Hc.
  destruct (count_items _ _) as [deg| |]; [|done..].
  apply top_sort_loop_total.
  - intros n Hn%Hc. rewrite in_degree_init in Hn.
    case_decide; [done | by destruct Hn].
  - etrans; [|by rewrite <- (length_fmap fst)].
    apply filter_length_disjoint. intros x Hx. rewrite Hx. simpl. lia.
Qed.

(** *** Graphs built through the API are well formed *)

Lemma well_formed_init : well_formed (init : SortableDigraph Node Val Weight).
Proof.
  split_and!.
  - constructor.
  - intros u. constructor.
  - intros u v Huv. by apply elem_of_nil in Huv.
Qed.

Lemma well_formed_add_node self n value :
  well_formed self → well_formed (add_node self n value).
Proof.
  intros (Hkeys & Hadj & Hclosed). split_and!.
  - unfold keys_nodup, add_node; simpl.
    destruct (dict_mem (graph self) n) eqn:E; [done|].
    rewrite fmap_app. apply NoDup_app. split_and!; [done | | apply NoDup_singleton].
    intros x Hx ->%list_elem_of_singleton. by apply dict_mem_false in E.
  - intros u. by apply NoDup_getitem_add_node.
  - intros u v Huv%edge_add_node. apply contains_add_node. right. by eapply Hclosed.
Qed.

Lemma well_formed_with_endpoints self a b :
  well_formed self → well_formed (with_endpoints self a b).
Proof.
  intros Hwf. unfold with_endpoints.
  repeat case_match; repeat apply well_formed_add_node; done.
Qed.

Lemma well_formed_add_edge self a b weight :
  well_formed self → well_formed (add_edge self a b weight).
Proof.
  intros Hwf. pose proof (well_formed_with_endpoints self a b Hwf) as (Hkeys & _ & _).
  destruct Hwf as (_ & Hadj & Hclosed). split_and!.
  - unfold keys_nodup, add_edge in *. fold (with_endpoints self a b). simpl.
    case_decide; [done|]. by rewrite dict_append_keys.
  - intros u. by apply NoDup_getitem_add_edge.
  - intros u v Huv%edge_add_edge. apply contains_add_edge.
    destruct Huv as [Huv|[_ ->]]; [|auto]. right; right. by eapply Hclosed.
Qed.

Lemma well_formed_dag_add_edge self a b weight :
  well_formed self → well_formed (dag_add_edge self a b weight).1.
Proof.
  intros Hwf. destruct (decide (a = b)) as [->|Hne].
  - rewrite dag_add_edge_self_loop. by apply well_formed_add_edge.
  - destruct (dag_add_edge_distinct self a b weight Hne) as [[Hp ->]|[Hp ->]]; simpl.
    + by apply well_formed_with_endpoints.
    + by apply well_formed_add_edge.
Qed.

Lemma well_formed_dag_run (ops : list (op Node Val Weight)) : well_formed (dag_run ops).
Proof.
  apply dag_run_ind; [apply well_formed_init|].
  intros s [n value|a b weight] Hs; simpl.
  - by apply well_formed_add_node.
  - by apply well_formed_dag_add_edge.
Qed.

Lemma well_formed_base_run (ops : list (op Node Val Weight)) : well_formed (base_run ops).
Proof.
  apply base_run_ind; [apply well_formed_init|].
  intros s [n value|a b weight] Hs; simpl.
  - by apply well_formed_add_node.
  - by apply well_formed_add_edge.
Qed.

(** On a [DAG] object that never received [add_edge(x, x)], [top_sort]
    returns every node once, sources before targets. *)
Lemma dag_run_top_sort (ops : list (op Node Val Weight)) :
  (∀ x weight, AddEdge x x weight ∉ ops) →
  ∃ order, top_sort (dag_run ops) = Ret order
    ∧ order ≡ₚ (graph (dag_run ops)).*1
    ∧ NoDup order
    ∧ ∀ u v, edge (dag_run ops) u v → before order u v.
Proof.
  intros Hops. apply top_sort_correct.
  - apply well_formed_dag_run.
  - by apply dag_run_acyclic.
Qed.

Lemma top_sort_init : top_sort (init : SortableDigraph Node Val Weight) = Ret [].
Proof. done. Qed.

(** ** More on the store *)

Lemma node_values_add_edge self a b weight :
  node_values (add_edge self a b weight) = node_values self.
Proof. unfold add_edge, add_node; simpl. by repeat case_match. Qed.

Lemma keys_add_node self n value :
  (graph (add_node self n value)).*1
  = if contains self n then (graph self).*1 else (graph self).*1 ++ [n].
Proof.
  unfold add_node, contains; simpl.
  destruct (dict_mem (graph self) n); [done | by rewrite fmap_app].
Qed.

Lemma with_endpoints_add_node self a b :
  with_endpoints self a b = add_node (add_node self a None) b None.
Proof.
  destruct self as [g nv ew]. unfold with_endpoints, add_node; simpl.
  destruct (dict_mem g a); simpl; by destruct (dict_mem _ b).
Qed.

Lemma contains_dag_add_edge self a b weight u :
  contains (dag_add_edge self a b weight).1 u = true ↔
  u = a ∨ u = b ∨ contains self u = true.
Proof.
  rewrite dag_add_edge_unfold. simpl.
  destruct (has_path _ b a) as [[]|]; simpl;
    rewrite ?contains_add_edge, with_endpoints_contains; naive_solver.
Qed.

Lemma edge_dag_add_edge self a b weight u v :
  edge (dag_add_edge self a b weight).1 u v →
  edge self u v ∨ (u = a ∧ v = b).
Proof.
  rewrite dag_add_edge_unfold. simpl.
  destruct (has_path _ b a) as [[]|]; simpl;
    rewrite ?edge_add_edge, edge_with_endpoints; naive_solver.
Qed.

Lemma edge_dag_add_edge_mono self a b weight u v :
  edge self u v → edge (dag_add_edge self a b weight).1 u v.
Proof.
  intros Huv. rewrite dag_add_edge_unfold. simpl.
  destruct (has_path _ b a) as [[]|]; simpl;
    rewrite ?edge_add_edge, edge_with_endpoints; auto.
Qed.

Lemma contains_base_step self (o : op Node Val Weight) u :
  contains (base_step self o) u = true ↔ contains self u = true ∨ u ∈ op_nodes o.
Proof.
  destruct o as [n value|a b weight]; simpl.
  - rewrite contains_add_node, list_elem_of_singleton. naive_solver.
  - rewrite contains_add_edge, !elem_of_cons, elem_of_nil. naive_solver.
Qed.

Lemma contains_dag_step self (o : op Node Val Weight) u :
  contains (dag_step self o) u = true ↔ contains self u = true ∨ u ∈ op_nodes o.
Proof.
  destruct o as [n value|a b weight]; simpl.
  - rewrite contains_add_node, list_elem_of_singleton. naive_solver.
  - rewrite contains_dag_add_edge, !elem_of_cons, elem_of_nil. naive_solver.
Qed.

Lemma edge_base_step self (o : op Node Val Weight) u v :
  edge (base_step self o) u v ↔ edge self u v ∨ ∃ weight, o = AddEdge u v weight.
Proof.
  destruct o as [n value|a b weight]; simpl.
  - rewrite edge_add_node. naive_solver.
  - rewrite edge_add_edge. naive_solver.
Qed.

Lemma edge_dag_step self (o : op Node Val Weight) u v :
  edge (dag_step self o) u v → edge self u v ∨ ∃ weight, o = AddEdge u v weight.
Proof.
  destruct o as [n value|a b weight]; simpl.
  - rewrite edge_add_node. naive_solver.
  - intros [?|[-> ->]]%edge_dag_add_edge; eauto.
Qed.

Lemma edge_dag_step_mono self (o : op Node Val Weight) u v :
  edge self u v → edge (dag_step self o) u v.
Proof.
  destruct o as [n value|a b weight]; simpl.
  - by rewrite edge_add_node.
  - apply edge_dag_add_edge_mono.
Qed.

(** Facts about a whole run follow from facts about one step. *)
Lemma fold_contains (step : SortableDigraph Node Val Weight → op Node Val Weight →
                            SortableDigraph Node Val Weight) :
  (∀ s o u, contains (step s o) u = true ↔ contains s u = true ∨ u ∈ op_nodes o) →
  ∀ ops s u, contains (fold_left step ops s) u = true ↔
             contains s u = true ∨ ∃ o, o ∈ ops ∧ u ∈ op_nodes o.
Proof.
  intros Hstep ops. induction ops as [|o ops IH]; intros s u; simpl.
  - split; [auto | intros [?|(? & ?%elem_of_nil & _)]; done].
  - rewrite IH, Hstep. split.
    + intros [[?|?]|(o' & ? & ?)]; [by left | right; exists o | right; exists o'];
        (split; [by constructor | done]).
    + intros [?|(o' & [->|?]%elem_of_cons & ?)]; [by left; left | by left; right |].
      right. by exists o'.
Qed.

Lemma fold_edge_mono (step : SortableDigraph Node Val Weight → op Node Val Weight →
                             SortableDigraph Node Val Weight) :
  (∀ s o u v, edge s u v → edge (step s o) u v) →
  ∀ ops s u v, edge s u v → edge (fold_left step ops s) u v.
Proof.
  intros Hstep ops. induction ops as [|o ops IH]; intros s u v Huv; simpl; [done|].
  by apply IH, Hstep.
Qed.

Lemma fold_edge_origin (step : SortableDigraph Node Val Weight → op Node Val Weight →
                               SortableDigraph Node Val Weight) :
  (∀ s o u v, edge (step s o) u v → edge s u v ∨ ∃ weight, o = AddEdge u v weight) →
  ∀ ops s u v, edge (fold_left step ops s) u v →
               edge s u v ∨ ∃ weight, AddEdge u v weight ∈ ops.
Proof.
  intros Hstep ops. induction ops as [|o ops IH]; intros s u v; simpl; [auto|].
  intros [[?|[weight ->]]%Hstep|[weight ?]]%IH; [by left | |].
  - right. exists weight. by left.
  - right. exists weight. by right.
Qed.

(** ** More on [predecessors] *)

Lemma filter_ext_elem (P Q : Node → Prop)
    `{!∀ x, Decision (P x), !∀ x, Decision (Q x)} (l : list Node) :
  (∀ x, x ∈ l → P x ↔ Q x) → filter P l = filter Q l.
Proof.
  induction l as [|y l IH]; intros HPQ; [done|].
  rewrite !filter_cons.
  rewrite IH by (intros x Hx; apply HPQ; by right).
  destruct (decide (P y)) as [HP|HP].
  - by rewrite decide_True by (apply HPQ; [by left | done]).
  - by rewrite decide_False by (intros HQ; apply HP, HPQ; [by left | done]).
Qed.

Lemma predecessors_keys (g : list (Node * list Node)) v :
  NoDup g.*1 →
  (filter (λ e, v ∈ e.2) g).*1 = filter (λ u, v ∈ default [] (dict_get g u)) g.*1.
Proof.
  induction g as [|[k ns] g IH]; [done|].
  rewrite fmap_cons. intros [Hk Hnd]%NoDup_cons.
  rewrite !filter_cons. cbn [fst snd dict_get].
  destruct (decide (k = k)) as [_|]; [|done]. cbn [default].
  assert (filter (λ u, v ∈ default [] (if decide (k = u) then Some ns else dict_get g u))
            g.*1
          = filter (λ u, v ∈ default [] (dict_get g u)) g.*1) as ->.
  { apply filter_ext_elem. intros u Hu.
    destruct (decide (k = u)) as [->|]; [by destruct Hk | done]. }
  rewrite <- IH by done. change (id ns) with ns.
  destruct (decide (v ∈ ns)); by rewrite ?fmap_cons.
Qed.

(** ** More on the traversals *)

Lemma first_occurrences_app_prefix (l1 l2 : list Node) (seen : gset Node) :
  ∃ tail, first_occurrences seen (l1 ++ l2) = first_occurrences seen l1 ++ tail.
Proof.
  revert seen. induction l1 as [|y l1 IH]; intros seen; simpl; [by eexists|].
  destruct (decide (y ∈ seen)); [apply IH|].
  destruct (IH ({[y]} ∪ seen)) as [tail ->]. by exists tail.
Qed.

Lemma first_occurrences_filter (l : list Node) (seen0 seen : gset Node) :
  seen0 ⊆ seen →
  first_occurrences seen (filter (λ n, n ∉ seen0) l) = first_occurrences seen l.
Proof.
  revert seen. induction l as [|y l IH]; intros seen Hsub; [done|].
  rewrite filter_cons. simpl. destruct (decide (y ∈ seen0)) as [Hy|Hy].
  - rewrite decide_False by (intros Hn; by apply Hn).
    rewrite decide_True by set_solver. by apply IH.
  - rewrite decide_True by done. simpl.
    destruct (decide (y ∈ seen)); [by apply IH|].
    f_equal. apply IH. set_solver.
Qed.

Lemma bfs_loop_prefix self start fuel visited (queue out : list Node) :
  start ∈ visited →
  bfs_loop fuel self start visited queue = Some out →
  ∃ rest, out = first_occurrences visited queue ++ rest.
Proof.
  revert visited queue out. induction fuel as [|fuel IH]; intros visited queue out Hs;
    destruct queue as [|y queue]; simpl; try done.
  - intros [= <-]. by exists [].
  - intros [= <-]. by exists [].
  - destruct (decide (y ∈ visited)) as [Hy|Hy]; [by apply IH|].
    rewrite decide_True by (intros ->; done).
    rewrite bfs_push_filter.
    destruct (bfs_loop _ _ _ _ _) as [out'|] eqn:Hl; [|done].
    simpl. intros [= <-].
    apply IH in Hl as [rest ->]; [|set_solver].
    destruct (first_occurrences_app_prefix queue
                (filter (λ n, n ∉ {[y]} ∪ visited) (getitem self y))
                ({[y]} ∪ visited)) as [tail ->].
    exists (tail ++ rest). by rewrite <- app_assoc.
Qed.

(** ** More on the topological sort *)

(** On a well-formed graph the counting loops of [top_sort] succeed, and
    the main loop starts from a state satisfying its invariant. *)
Lemma top_sort_start self :
  well_formed self →
  ∃ deg, count_items (graph self) (list_to_map ((λ e, (e.1, 0%Z)) <$> graph self))
         = Ret deg
    ∧ (∀ v, deg !! v = if decide (v ∈ (graph self).*1)
                       then Some (Z.of_nat (indeg_rem (graph self) [] v)) else None)
    ∧ topo_inv self deg (filter (λ k, deg !! k = Some 0%Z) (graph self).*1) [].
Proof.
  intros (Hkeys & Hadj & Hclosed).
  destruct (count_items_spec (graph self)
              (list_to_map ((λ e, (e.1, 0%Z)) <$> graph self)))
    as (deg & Hcount & Hdeg).
  { intros [k ms] n He Hn. rewrite in_degree_init, decide_True; [by eexists|].
    apply dict_mem_true. apply (Hclosed k n). apply edge_dict_get.
    exists ms. split; [by apply dict_get_Some_NoDup | done]. }
  assert (∀ v, deg !! v = if decide (v ∈ (graph self).*1)
                          then Some (Z.of_nat (indeg_rem (graph self) [] v))
                          else None) as Hdeg0.
  { intros v. rewrite Hdeg, in_degree_init. case_decide; simpl; [|done].
    f_equal. }
  exists deg. split; [done|]. split; [done|].
  split_and!; [done | by apply NoDup_filter | | ].
  - intros v. simpl. rewrite list_elem_of_filter, Hdeg0. split.
    + intros [Hd Hv]. split; [done|]. rewrite decide_True in Hd by done.
      injection Hd. lia.
    + intros [Hv H0]. split; [|done]. rewrite decide_True by done. by rewrite H0.
  - intros r1 v r2 Heq. by destruct r1.
Qed.

Lemma relax_appends (ns : list Node) (deg deg' : gmap Node Z) (queue queue' : list Node) :
  relax ns deg queue = Ret (deg', queue') → ∃ new, queue' = queue ++ new.
Proof.
  revert deg queue. induction ns as [|m ns IH]; intros deg queue; simpl.
  - intros [= _ <-]. exists []. by rewrite app_nil_r.
  - destruct (deg !! m) as [d|]; [|done].
    intros [new ->]%IH. case_decide.
    + exists (m :: new). by rewrite <- app_assoc.
    + by exists new.
Qed.

Lemma top_sort_loop_prefix self fuel (deg : gmap Node Z) (queue result_ order : list Node) :
  top_sort_loop fuel self deg queue result_ = Ret order →
  ∃ rest, order = result_ ++ queue ++ rest.
Proof.
  revert deg queue result_. induction fuel as [|fuel IH]; intros deg queue result_;
    destruct queue as [|y queue]; simpl; try done.
  - intros [= <-]. exists []. by rewrite app_nil_r.
  - intros [= <-]. exists []. by rewrite app_nil_r.
  - destruct (dict_get (graph self) y) as [ns|]; [|done].
    destruct (relax ns deg queue) as [[deg' queue']| |] eqn:Hr; [|done..].
    apply relax_appends in Hr as [new ->].
    intros [rest ->]%IH. exists (new ++ rest).
    by rewrite <- !app_assoc.
Qed.

(** In an order where the sources of the edges into a member come before
    it, the origin of every path into a member comes before it. *)
Lemma topo_order_path self (order : list Node) u v :
  (∀ r1 w r2, order = r1 ++ w :: r2 → ∀ z, edge self z w → z ∈ r1) →
  path self u v → ∀ r1 r2, order = r1 ++ v :: r2 → u ∈ r1.
Proof.
  intros Horder. induction 1 as [u v He|u w v He Hp IH]; intros r1 r2 Heq.
  - by eapply Horder.
  - specialize (IH r1 r2 Heq).
    apply list_elem_of_split in IH as (l1 & l2 & ->).
    rewrite <- app_assoc in Heq. simpl in Heq.
    apply elem_of_app. left. by eapply Horder.
Qed.

Lemma indeg_rem_zero_predecessors self v :
  indeg_rem (graph self) [] v = 0 ↔ predecessors self v = [].
Proof.
  rewrite predecessors_filter. split.
  - intros Hz.
    assert (filter (λ e, v ∈ e.2) (graph self) = []) as ->; [|done].
    apply elem_of_nil_inv. intros [k ms] [Hv Hin]%list_elem_of_filter.
    by apply (elem_of_nil k), (indeg_rem_zero _ _ _ k ms Hz Hin Hv).
  - intros Hnil. apply (fmap_nil_inv fst) in Hnil.
    destruct (decide (indeg_rem (graph self) [] v = 0)) as [|Hnz]; [done|].
    apply indeg_rem_nonzero in Hnz as (k & ms & Hin & _ & Hv).
    assert ((k, ms) ∈ filter (λ e, v ∈ e.2) (graph self)) as Hf
      by by apply list_elem_of_filter.
    rewrite Hnil in Hf. by apply elem_of_nil in Hf.
Qed.

End digraph_facts.

(** * The properties of the specification *)

Section claims.

Context `{Countable Node} {Val Weight : Type}.

Implicit Types (self : SortableDigraph Node Val Weight).
Implicit Types (a b u v x start node : Node).

(** C2. For distinct nodes [a] and [b], [DAG.add_edge(a, b)] raises the
    cycle error carrying the pair [(a, b)] exactly when a path from [b] to
    [a] already exists, and returns normally exactly when none does.  On
    rejection no edge is added (every successor sequence is as before), the
    edge weights are unchanged, and both endpoints are nodes of the graph
    afterwards, next to the nodes that were there before. *)
Theorem dag_add_edge_rejects_iff_path self a b (weight : option Weight) :
  a ≠ b →
  let self' := (dag_add_edge self a b weight).1 in
  let r := (dag_add_edge self a b weight).2 in
  (r = Raise (ValueError a b) ↔ path self b a)
  ∧ (r = Ret () ↔ ¬ path self b a)
  ∧ (r = Raise (ValueError a b) →
       (∀ u v, edge self' u v ↔ edge self u v)
       ∧ (∀ u, getitem self' u = getitem self u)
       ∧ edge_weights self' = edge_weights self
       ∧ contains self' a = true ∧ contains self' b = true
       ∧ (∀ u, contains self' u = true ↔ u = a ∨ u = b ∨ contains self u = true)).
Proof.
  intros Hne. simpl.
  destruct (dag_add_edge_distinct self a b weight Hne) as [[Hp ->]|[Hp ->]]; simpl.
  - split_and!; [done | split; [done | by intros []] |].
    intros _. split_and!.
    + intros u v. apply edge_with_endpoints.
    + intros u. apply with_endpoints_getitem.
    + apply with_endpoints_edge_weights.
    + apply with_endpoints_contains. auto.
    + apply with_endpoints_contains. auto.
    + intros u. apply with_endpoints_contains.
  - split_and!; [split; [done | by intros ?] | done | done].
Qed.

(** C5. Both traversals produce a result; it never contains [start], has no
    repetition, and its members are exactly the nodes other than [start]
    reachable from [start], each occurring once.  When [start] is not a node
    of the graph both results are empty. *)
Theorem traversals_reach_exactly self start :
  ∃ ds bs : list Node, dfs self start = Some ds ∧ bfs self start = Some bs
    ∧ (start ∉ ds) ∧ (start ∉ bs) ∧ NoDup ds ∧ NoDup bs
    ∧ (∀ v, v ∈ ds ↔ v ≠ start ∧ reachable self start v)
    ∧ (∀ v, v ∈ bs ↔ v ≠ start ∧ reachable self start v)
    ∧ (∀ v, v ≠ start → reachable self start v →
         occurrences v ds = 1 ∧ occurrences v bs = 1)
    ∧ (contains self start = false → ds = [] ∧ bs = []).
Proof.
  destruct (dfs_total self start) as [ds Hd], (bfs_total self start) as [bs Hb].
  exists ds, bs. split; [done|]. split; [done|].
  apply dfs_spec in Hd as [Hdn Hd]. apply bfs_spec in Hb as [Hbn Hb].
  split_and!; try done.
  - intros [? _]%Hd. done.
  - intros [? _]%Hb. done.
  - intros v Hv Hr. split; apply occurrences_NoDup; try done.
    + by apply Hd.
    + by apply Hb.
  - intros Hc. split; apply elem_of_nil_inv; intros v.
    + intros [Hv Hr]%Hd. by apply not_contains_reachable in Hr.
    + intros [Hv Hr]%Hb. by apply not_contains_reachable in Hr.
Qed.

(** C8. On every graph built through the store's API, after
    [add_edge(a, b)] both [a] and [b] are nodes and [b] occurs exactly once
    among the successors of [a]; a second [add_edge(a, b)] keeps all of this
    and leaves the adjacency dictionary as it was. *)
Theorem base_add_edge_once (ops : list (op Node Val Weight)) a b
    (weight weight' : option Weight) :
  let self := base_run ops in
  let s1 := add_edge self a b weight in
  let s2 := add_edge s1 a b weight' in
  contains s1 a = true ∧ contains s1 b = true ∧ occurrences b (getitem s1 a) = 1
  ∧ contains s2 a = true ∧ contains s2 b = true ∧ occurrences b (getitem s2 a) = 1
  ∧ graph s2 = graph s1.
Proof.
  intros self s1 s2.
  assert (∀ u, NoDup (getitem self u)) as Hnd
    by (intros u; apply NoDup_getitem_base_run).
  assert (∀ u, NoDup (getitem s1 u)) as Hnd1
    by by apply NoDup_getitem_add_edge.
  destruct (add_edge_once self a b weight (Hnd a)) as (? & ? & ?).
  destruct (add_edge_once s1 a b weight' (Hnd1 a)) as (? & ? & ?).
  split_and!; try done. apply add_edge_twice.
Qed.

(** C9. The lookups are total functions: [neighbors] of a node that is not
    in the graph is the empty sequence, and [get_edge_weight] of a pair
    without a recorded weight is [None]; a pair for which no [add_edge] call
    passed a weight has none recorded. *)
Theorem lookups_degrade_on_absent_keys :
  (∀ self node, contains self node = false →
     getitem self node = [] ∧ successors self node = [])
  ∧ (∀ self a b, edge_weights self !! (a, b) = None →
       get_edge_weight self a b = None)
  ∧ (∀ (ops : list (op Node Val Weight)) a b,
       (∀ wt, AddEdge a b (Some wt) ∉ ops) →
       get_edge_weight (base_run ops) a b = None).
Proof.
  split_and!.
  - intros self node Hc. split; by apply not_contains_getitem.
  - intros self a b Hw. exact Hw.
  - intros ops a b Hops. by apply edge_weights_base_run.
Qed.

(** C6. The breadth-first traversal emits its nodes by non-decreasing
    shortest-path distance from [start]: every emitted node has a distance,
    the sequence of these distances is sorted, and a node emitted before
    another is no farther from [start].  The order within a distance is the
    enqueue order: the emitted sequence is the sequence of enqueued nodes,
    each kept at its first occurrence, without [start]. *)
Theorem bfs_nondecreasing_distance self start :
  ∃ (out : list (Node * nat)) (enq : list Node),
    bfs_trace self start = Some (out, enq)
    ∧ bfs self start = Some out.*1
    ∧ Forall (λ e, is_dist self start e.1 e.2) out
    ∧ StronglySorted le out.*2
    ∧ (∀ u v du dv, before out.*1 u v →
         is_dist self start u du → is_dist self start v dv → du ≤ dv)
    ∧ out.*1 = filter (λ n, n ≠ start) (first_occurrences ∅ enq).
Proof.
  pose proof (bfs_trace_erase self start) as Herase.
  destruct (bfs_total self start) as [bs Hbs]. rewrite Hbs in Herase.
  unfold bfs_trace in *.
  destruct (bfs_trace_loop _ _ _ _ _) as [[out enq]|] eqn:Hl; [|done].
  simpl in Herase. injection Herase as <-.
  exists out, (start :: enq). split; [done|]. split; [done|].
  destruct (bfs_trace_loop_levels _ _ _ _ _ _ _ _ (trace_inv_init self start) Hl)
    as (Hd & Hs & _).
  split_and!; [done | done | |].
  - intros u v du dv. by apply levels_before.
  - by apply bfs_trace_loop_order in Hl.
Qed.

(** C10. [_has_path(x, x)] returns [False] in every state of the graph,
    whatever edges it has. *)
Theorem has_path_to_itself_is_false self x : has_path self x x = Some false.
Proof. apply has_path_self. Qed.

End claims.

(** ** Concrete scenarios *)

(** C7. After [add_edge] of A->B, A->C, B->D the depth-first traversal
    from A yields [B, D, C] and the breadth-first one [B, C, D]. *)
Theorem abcd_traversals :
  dfs abcd "A" = Some ["B"; "D"; "C"]%string
  ∧ bfs abcd "A" = Some ["B"; "C"; "D"]%string.
Proof. split; vm_compute; reflexivity. Qed.

(** C3. [add_edge("A", "A")] on a fresh DAG returns normally and stores the
    self-loop, where the specification asks for the cycle error. *)
Theorem dag_accepts_self_loop :
  dag_add_edge (init : SortableDigraph string unit unit) "A" "A" None
  = (MkDigraph [("A", ["A"])]%string ∅ ∅, Ret ()).
Proof. vm_compute. reflexivity. Qed.

(** C1. On a fresh DAG [add_edge("A", "A")] returns normally and the edge
    set then has the cycle A -> A, where the specification asks for an
    acyclic edge set after every successful insertion. *)
Theorem dag_self_loop_breaks_acyclicity :
  (dag_add_edge (init : SortableDigraph string unit unit) "A" "A" None).2 = Ret ()
  ∧ path self_loop "A" "A"
  ∧ ¬ acyclic self_loop.
Proof.
  assert (path self_loop "A" "A") as Hp.
  { apply tc_once. unfold edge.
    replace (getitem self_loop "A") with ["A"]%string by (vm_compute; reflexivity).
    by left. }
  split_and!; [vm_compute; reflexivity | done |].
  intros Ha. by apply (Ha "A"%string).
Qed.

(** C4. On the DAG obtained by [add_edge("A", "A")] on a fresh object,
    [top_sort()] returns the empty sequence although "A" is a node, where
    the specification asks for every node exactly once. *)
Theorem top_sort_omits_self_loop_node :
  top_sort self_loop = Ret []
  ∧ contains self_loop "A" = true
  ∧ (graph self_loop).*1 = ["A"]%string.
Proof. split_and!; vm_compute; reflexivity. Qed.

(** The scenario of the specification: on the DAG with A->B, B->C, A->C the
    sort is [A, B, C], and [add_edge("C", "A")] is rejected and leaves C
    without successors. *)
Example abc_scenario :
  top_sort abc = Ret ["A"; "B"; "C"]%string
  ∧ (dag_add_edge abc "C" "A" None).2 = Raise (ValueError "C" "A")%string
  ∧ getitem (dag_add_edge abc "C" "A" None).1 "C" = [].
Proof. split_and!; vm_compute; reflexivity. Qed.

Lemma dag_add_edge_rejects_iff_path_witness :
  (dag_add_edge abc "C" "A" None).2 = Raise (ValueError "C" "A")%string
  ↔ path abc "A" "C".
Proof.
  apply (dag_add_edge_rejects_iff_path abc "C" "A" None)%string. done.
Defined.

Lemma lookups_degrade_on_absent_keys_witness :
  getitem abcd "Z" = [] ∧ get_edge_weight abcd "A" "B" = None.
Proof.
  destruct (@lookups_degrade_on_absent_keys string _ _ unit unit) as (Hn & Hw & _).
  split.
  - apply Hn. reflexivity.
  - apply Hw. reflexivity.
Defined.

(** * Further properties of the code *)

Section extras.

Context `{Countable Node} {Val Weight : Type}.

Implicit Types (self : SortableDigraph Node Val Weight).
Implicit Types (ops : list (op Node Val Weight)).
Implicit Types (a b u v x start node : Node).

(** X1. [add_node(n)] makes [n] a node and adds no other; it changes no
    successor sequence, so a node that was new has none; a new node goes to
    the end of the dictionary and a known one leaves the dictionary as it
    was; edge weights are untouched. *)
Theorem add_node_effect self node (value : option Val) :
  let self' := add_node self node value in
  (∀ u, contains self' u = true ↔ u = node ∨ contains self u = true)
  ∧ (∀ u, getitem self' u = getitem self u)
  ∧ getitem self' node = getitem self node
  ∧ (graph self').*1
    = (if contains self node then (graph self).*1 else (graph self).*1 ++ [node])
  ∧ (contains self node = true → graph self' = graph self)
  ∧ (contains self node = false → getitem self' node = [])
  ∧ edge_weights self' = edge_weights self.
Proof.
  cbv zeta. split_and!.
  - intros u. apply contains_add_node.
  - intros u. apply getitem_add_node.
  - apply getitem_add_node.
  - apply keys_add_node.
  - unfold add_node, contains; simpl. by intros ->.
  - intros Hc. rewrite getitem_add_node. by apply not_contains_getitem.
  - done.
Qed.

(** X2. [add_node(n, value)] records a value that is given and keeps the
    recorded one when none is given; values of other nodes are untouched,
    and repeating the call leaves the adjacency dictionary as it was. *)
Theorem add_node_value self node (value value' : option Val) :
  node_values (add_node self node value) !! node
  = match value with Some val => Some val | None => node_values self !! node end
  ∧ (∀ u, u ≠ node →
       node_values (add_node self node value) !! u = node_values self !! u)
  ∧ graph (add_node (add_node self node value) node value')
    = graph (add_node self node value).
Proof.
  split_and!.
  - unfold add_node; simpl. destruct value; [apply lookup_insert_eq | done].
  - intros u Hu. unfold add_node; simpl.
    destruct value; [by apply lookup_insert_ne | done].
  - assert (contains (add_node self node value) node = true) as Hc
      by (apply contains_add_node; auto).
    unfold contains in Hc. unfold add_node at 1. cbn [graph]. by rewrite Hc.
Qed.

(** X3. [SortableDigraph.add_edge(a, b)] adds the edge [a -> b] and no
    other, and the nodes [a], [b] and no other; a new successor goes to the
    end of the successor sequence of [a], a known one leaves it as it was;
    node values are untouched. *)
Theorem add_edge_effect self a b (weight : option Weight) :
  let self' := add_edge self a b weight in
  (∀ u v, edge self' u v ↔ edge self u v ∨ (u = a ∧ v = b))
  ∧ (∀ u, contains self' u = true ↔ u = a ∨ u = b ∨ contains self u = true)
  ∧ (∀ u, u ≠ a → getitem self' u = getitem self u)
  ∧ getitem self' a
    = (if decide (b ∈ getitem self a) then getitem self a else getitem self a ++ [b])
  ∧ node_values self' = node_values self.
Proof.
  cbv zeta. split_and!.
  - intros u v. apply edge_add_edge.
  - intros u. apply contains_add_edge.
  - intros u Hu. by rewrite getitem_add_edge, decide_False.
  - by rewrite getitem_add_edge, decide_True.
  - apply node_values_add_edge.
Qed.

(** X4. A weight passed to [add_edge(a, b, weight)] is what
    [get_edge_weight(a, b)] returns afterwards; without a weight the
    recorded one stays; the weight of every other ordered pair, the reverse
    pair included, is untouched. *)
Theorem edge_weight_round_trip self a b (weight : option Weight) :
  get_edge_weight (add_edge self a b weight) a b
  = match weight with Some wt => Some wt | None => get_edge_weight self a b end
  ∧ (∀ a' b', (a', b') ≠ (a, b) →
       get_edge_weight (add_edge self a b weight) a' b' = get_edge_weight self a' b').
Proof.
  split.
  - unfold get_edge_weight. destruct weight as [wt|].
    + unfold add_edge; simpl. apply lookup_insert_eq.
    + by apply edge_weights_add_edge_ne.
  - intros a' b' Hne. unfold get_edge_weight.
    apply edge_weights_add_edge_ne. intros _ _ Heq. by apply Hne.
Qed.

(** X5. Every graph built through the API of the base store or of the DAG
    is well formed: the dictionary has one entry per node, no successor
    sequence has a repeated entry, and every successor is a node. *)
Theorem api_graphs_well_formed ops :
  well_formed (base_run ops) ∧ well_formed (dag_run ops).
Proof. split; [apply well_formed_base_run | apply well_formed_dag_run]. Qed.

(** X6. The nodes of a graph are exactly the nodes named by the calls that
    built it, whether each [add_edge] was accepted or, on a DAG, rejected. *)
Theorem nodes_are_the_named_ones ops u :
  (contains (base_run ops) u = true ↔ ∃ o, o ∈ ops ∧ u ∈ op_nodes o)
  ∧ (contains (dag_run ops) u = true ↔ ∃ o, o ∈ ops ∧ u ∈ op_nodes o).
Proof.
  split.
  - unfold base_run. rewrite (fold_contains base_step contains_base_step).
    split; [by intros [?|?] | auto].
  - unfold dag_run. rewrite (fold_contains dag_step contains_dag_step).
    split; [by intros [?|?] | auto].
Qed.

(** X7. In the base store the edges are exactly the pairs passed to
    [add_edge]; on a DAG every edge is a pair that was passed to
    [add_edge]. *)
Theorem edges_come_from_add_edge ops u v :
  (edge (base_run ops) u v ↔ ∃ weight, AddEdge u v weight ∈ ops)
  ∧ (edge (dag_run ops) u v → ∃ weight, AddEdge u v weight ∈ ops).
Proof.
  split; [split|].
  - intros [Hinit|?]%(fold_edge_origin base_step); [|done|].
    + by apply elem_of_nil in Hinit.
    + intros ????. by rewrite edge_base_step.
  - intros [weight (l1 & l2 & ->)%list_elem_of_split].
    unfold base_run. rewrite fold_left_app. simpl.
    apply (fold_edge_mono base_step).
    + intros ?????. apply edge_base_step. by left.
    + apply edge_add_edge_new.
  - intros [Hinit|?]%(fold_edge_origin dag_step edge_dag_step); [|done].
    by apply elem_of_nil in Hinit.
Qed.

(** X8. No call removes a node or an edge: what is in the graph after
    some calls is still there after any further calls. *)
Theorem api_never_removes ops ops' u v :
  (contains (base_run ops) u = true → contains (base_run (ops ++ ops')) u = true)
  ∧ (edge (base_run ops) u v → edge (base_run (ops ++ ops')) u v)
  ∧ (contains (dag_run ops) u = true → contains (dag_run (ops ++ ops')) u = true)
  ∧ (edge (dag_run ops) u v → edge (dag_run (ops ++ ops')) u v).
Proof.
  unfold base_run, dag_run. rewrite !fold_left_app. split_and!.
  - intros Hc. apply (fold_contains base_step contains_base_step). by left.
  - apply (fold_edge_mono base_step). intros ?????. apply edge_base_step. by left.
  - intros Hc. apply (fold_contains dag_step contains_dag_step). by left.
  - apply (fold_edge_mono dag_step). intros ?????. by apply edge_dag_step_mono.
Qed.

(** X9. [_has_path(a, b)] returns [True] exactly when [a] and [b] are
    distinct and a nonempty sequence of edges leads from [a] to [b]; it
    returns in every state, also when [a] is not a node. *)
Theorem has_path_exact self a b :
  ∃ r, has_path self a b = Some r ∧ (r = true ↔ a ≠ b ∧ path self a b).
Proof.
  destruct (decide (a = b)) as [->|Hne].
  - exists false. split; [apply has_path_self|]. split; [done | by intros [? _]].
  - destruct (contains self a) eqn:Hc.
    + destruct (has_path_distinct self a b Hc Hne) as (r & Hr & Hiff).
      exists r. split; [done|]. rewrite Hiff. naive_solver.
    + exists false. split.
      * unfold has_path. by rewrite Hc.
      * split; [done|]. intros [_ Hp]. apply tc_rtc in Hp.
        apply not_contains_reachable in Hp; [|done]. by subst.
Qed.

(** X10. [DAG.add_edge(a, b)] has two outcomes.  It returns normally and
    the object is then as after the base [add_edge(a, b)]: this happens when
    [a = b] or no path leads from [b] to [a].  Or it raises the error for
    the pair [(a, b)] and the object is then as after [add_node(a)] and
    [add_node(b)]: this happens when [a] and [b] differ and a path leads
    from [b] to [a]. *)
Theorem dag_add_edge_outcomes self a b (weight : option Weight) :
  (dag_add_edge self a b weight = (add_edge self a b weight, Ret ())
   ∧ (a = b ∨ ¬ path self b a))
  ∨ (dag_add_edge self a b weight
     = (add_node (add_node self a None) b None, Raise (ValueError a b))
     ∧ a ≠ b ∧ path self b a).
Proof.
  destruct (decide (a = b)) as [->|Hne].
  - left. split; [apply dag_add_edge_self_loop | by left].
  - destruct (dag_add_edge_distinct self a b weight Hne) as [[Hp ->]|[Hp ->]].
    + right. by rewrite with_endpoints_add_node.
    + left. split; [done | by right].
Qed.

(** X11. The cycles of a DAG object are the self-loops it was asked for:
    a node lies on a cycle exactly when [add_edge(x, x)] was called, and the
    object is acyclic exactly when no such call was made. *)
Theorem dag_cycles_are_requested_self_loops ops :
  (∀ x, path (dag_run ops) x x ↔ ∃ weight, AddEdge x x weight ∈ ops)
  ∧ (acyclic (dag_run ops) ↔ ∀ x weight, AddEdge x x weight ∉ ops).
Proof.
  assert (∀ x, path (dag_run ops) x x ↔ ∃ weight, AddEdge x x weight ∈ ops) as Hcyc.
  { intros x. split.
    - intros Hp.
      assert (edge (dag_run ops) x x) as He.
      { inversion Hp as [? ? He|? y ? He Hp']; subst; [done|].
        destruct (decide (x = y)) as [<-|Hne]; [done|].
        destruct (dag_run_no_proper_cycle ops x y Hne); [by apply tc_once | done]. }
      apply (fold_edge_origin dag_step edge_dag_step) in He as [He|?]; [|done].
      by apply elem_of_nil in He.
    - intros [weight (l1 & l2 & ->)%list_elem_of_split].
      apply tc_once. unfold dag_run. rewrite fold_left_app. simpl.
      apply (fold_edge_mono dag_step); [intros ?????; by apply edge_dag_step_mono|].
      rewrite dag_add_edge_self_loop. simpl. apply edge_add_edge_new. }
  split; [done|]. split.
  - intros Ha x weight Hin. apply (Ha x), Hcyc. eauto.
  - intros Hno x [weight Hin]%Hcyc. by apply (Hno x weight).
Qed.

(** X12. On a graph whose dictionary has one entry per node,
    [predecessors(v)] is the sequence of nodes, in insertion order and
    without repetition, that have [v] among their successors: [u] is a
    predecessor of [v] exactly when [v] is a successor of [u]. *)
Theorem predecessors_spec self v :
  keys_nodup self →
  predecessors self v = filter (λ u, v ∈ successors self u) (graph self).*1
  ∧ NoDup (predecessors self v)
  ∧ (∀ u, u ∈ predecessors self v ↔ v ∈ successors self u).
Proof.
  intros Hkeys.
  assert (predecessors self v = filter (λ u, v ∈ successors self u) (graph self).*1)
    as Heq by (rewrite predecessors_filter; by apply predecessors_keys).
  split; [done|]. rewrite Heq. split; [by apply NoDup_filter|].
  intros u. rewrite list_elem_of_filter. split; [by intros [? _]|].
  intros Hv. split; [done|].
  destruct (decide (u ∈ (graph self).*1)) as [|Hu]; [done|].
  apply dict_get_None in Hu. unfold successors in Hv. rewrite Hu in Hv.
  by apply elem_of_nil in Hv.
Qed.

(** X13. After [add_edge(a, b)] on any graph, [a] is among the
    predecessors of [b] and [b] among the successors of [a]. *)
Theorem add_edge_links_both_ways self a b (weight : option Weight) :
  a ∈ predecessors (add_edge self a b weight) b
  ∧ b ∈ successors (add_edge self a b weight) a.
Proof. split; [apply predecessors_add_edge | apply edge_add_edge_new]. Qed.

(** X14. On every well-formed graph, cyclic or not, [top_sort] returns
    without error a sequence of nodes without repetition in which a node
    appears exactly when all its predecessors appear, each of them earlier;
    so does the origin of every path into a member, and no node on a cycle
    appears. *)
Theorem top_sort_on_well_formed self :
  well_formed self →
  ∃ order, top_sort self = Ret order
    ∧ NoDup order
    ∧ (∀ v, v ∈ order ↔
            contains self v = true ∧ ∀ u, edge self u v → u ∈ order)
    ∧ (∀ u v, path self u v → v ∈ order → before order u v)
    ∧ (∀ x, path self x x → x ∉ order).
Proof.
  intros Hwf. pose proof Hwf as (Hkeys & Hadj & Hclosed).
  destruct (top_sort_start self Hwf) as (deg & Hcount & _ & Hinv).
  unfold top_sort. rewrite Hcount.
  destruct (top_sort_loop_spec self (length (graph self)) deg _ [] Hwf Hinv)
    as (order & deg' & -> & (_ & Hnd & Hzero & Horder)); [simpl; lia|].
  rewrite app_nil_r in Hnd.
  assert (∀ u v, path self u v → v ∈ order → before order u v) as Hbefore.
  { intros u v Hp (r1 & r2 & ->)%list_elem_of_split.
    pose proof (topo_order_path self _ u v Horder Hp r1 r2 eq_refl) as Hu.
    apply list_elem_of_split in Hu as (l1 & l2 & ->).
    exists l1, l2, r2. by rewrite <- app_assoc. }
  exists order. split_and!; [done | done | | done |].
  - intros v. specialize (Hzero v). rewrite app_nil_r in Hzero.
    rewrite Hzero. unfold contains. rewrite dict_mem_true. split.
    + intros [Hv H0]. split; [done|]. intros u Huv.
      apply edge_dict_get in Huv as (ms & Hget & Hin).
      eapply indeg_rem_zero; [exact H0 | by apply dict_get_elem_of | done].
    + intros [Hv Hpred]. split; [done|].
      destruct (decide (indeg_rem (graph self) order v = 0)) as [|Hnz]; [done|].
      apply indeg_rem_nonzero in Hnz as (k & ms & Hin & Hk & Hvm).
      destruct Hk. apply Hpred. apply edge_dict_get.
      exists ms. split; [by apply dict_get_Some_NoDup | done].
  - intros x Hp Hx. destruct (Hbefore x x Hp Hx) as (l1 & l2 & l3 & ->).
    apply NoDup_app in Hnd as (_ & _ & Hnd).
    apply NoDup_cons in Hnd as [Hnd _]. apply Hnd.
    apply elem_of_app. right. by left.
Qed.

(** X15. On a well-formed acyclic graph [top_sort] returns a rearrangement
    of the nodes in which the source of every edge comes before its
    target. *)
Theorem top_sort_sorts_acyclic self :
  well_formed self → acyclic self →
  ∃ order, top_sort self = Ret order
    ∧ order ≡ₚ (graph self).*1
    ∧ ∀ u v, edge self u v → before order u v.
Proof.
  intros Hwf Ha. destruct (top_sort_correct self Hwf Ha) as (order & ? & ? & _ & ?).
  by exists order.
Qed.

(** X16. On a DAG object that never received [add_edge(x, x)], whatever
    else was added or rejected, [top_sort] returns every node once with the
    source of every edge before its target. *)
Theorem dag_top_sort_without_self_loops ops :
  (∀ x weight, AddEdge x x weight ∉ ops) →
  ∃ order, top_sort (dag_run ops) = Ret order
    ∧ order ≡ₚ (graph (dag_run ops)).*1
    ∧ NoDup order
    ∧ ∀ u v, edge (dag_run ops) u v → before order u v.
Proof. apply dag_run_top_sort. Qed.

(** X17. On a well-formed graph the result of [top_sort] starts with the
    nodes that have no predecessor, in insertion order. *)
Theorem top_sort_starts_with_sources self :
  well_formed self →
  ∃ rest, top_sort self
          = Ret (filter (λ k, predecessors self k = []) (graph self).*1 ++ rest).
Proof.
  intros Hwf.
  destruct (top_sort_start self Hwf) as (deg & Hcount & Hdeg & Hinv).
  unfold top_sort. rewrite Hcount.
  destruct (top_sort_loop_spec self (length (graph self)) deg _ [] Hwf Hinv)
    as (order & deg' & Hloop & _); [simpl; lia|].
  rewrite Hloop. apply top_sort_loop_prefix in Hloop as [rest ->].
  exists rest. simpl. do 2 f_equal.
  apply filter_ext_elem. intros k Hk.
  rewrite Hdeg, decide_True by done. rewrite <- indeg_rem_zero_predecessors.
  split; [intros [= Hz]; lia | by intros ->].
Qed.

(** X18. The breadth-first traversal starts with the successors of
    [start] in adjacency order ([start] itself and repetitions left out). *)
Theorem bfs_starts_with_successors self start :
  ∃ rest, bfs self start
          = Some (first_occurrences {[start]} (getitem self start) ++ rest).
Proof.
  destruct (bfs_total self start) as [out Hout]. rewrite Hout.
  unfold bfs in Hout. simpl in Hout.
  rewrite decide_False in Hout by set_solver.
  rewrite decide_False in Hout by (intros Hn; by apply Hn).
  rewrite bfs_push_filter, union_empty_r_L in Hout. simpl in Hout.
  apply bfs_loop_prefix in Hout as [rest ->]; [|set_solver].
  exists rest. by rewrite first_occurrences_filter by set_solver.
Qed.

(** X19. The depth-first traversal starts with the first successor of
    [start] other than [start]. *)
Theorem dfs_starts_with_first_successor self start x :
  head (filter (λ v, v ≠ start) (getitem self start)) = Some x →
  ∃ rest, dfs self start = Some (x :: rest).
Proof.
  intros (l & Hl)%head_Some.
  destruct (dfs_total self start) as [out Hout]. rewrite Hout.
  unfold dfs in Hout. cbn [dfs_loop] in Hout.
  rewrite decide_False in Hout by set_solver.
  rewrite decide_False in Hout by (intros Hn; by apply Hn).
  rewrite dfs_push_filter, union_empty_r_L, app_nil_r in Hout.
  assert (filter (λ n, n ∉ ({[start]} ∪ ∅ : gset Node)) (getitem self start) = x :: l)
    as Hf.
  { rewrite <- Hl. apply list_filter_iff. intros n. set_solver. }
  rewrite Hf in Hout.
  assert (x ≠ start) as Hx.
  { assert (x ∈ filter (λ v, v ≠ start) (getitem self start)) as Hin
      by (rewrite Hl; by left).
    by apply list_elem_of_filter in Hin as [? _]. }
  destruct (edge_count (graph self)) as [|fuel]; cbn [dfs_loop] in Hout; [done|].
  rewrite decide_False in Hout by set_solver.
  rewrite decide_True in Hout by done.
  destruct (dfs_loop _ _ _ _ _) as [rest|]; [|done].
  injection Hout as <-. by exists rest.
Qed.

(** X20. The two traversals from the same node emit the same nodes: one
    result is a rearrangement of the other; on a graph where every
    successor is a node, all emitted nodes are nodes of the graph. *)
Theorem dfs_bfs_same_nodes self start :
  ∃ ds bs : list Node, dfs self start = Some ds ∧ bfs self start = Some bs
    ∧ ds ≡ₚ bs
    ∧ (adj_closed self → ∀ v, v ∈ ds → contains self v = true).
Proof.
  destruct (dfs_total self start) as [ds Hd], (bfs_total self start) as [bs Hb].
  exists ds, bs. split; [done|]. split; [done|].
  apply dfs_spec in Hd as [Hdn Hd]. apply bfs_spec in Hb as [Hbn Hb].
  split.
  - apply NoDup_Permutation; [done..|]. intros v. by rewrite Hd, Hb.
  - intros Hclosed v [Hne Hr]%Hd.
    apply rtc_inv_r in Hr as [->|(u & _ & Huv)]; [done|]. by eapply Hclosed.
Qed.

(** X21. A weight passed to [DAG.add_edge(a, b, weight)] is recorded
    exactly when the call returns normally: then [get_edge_weight(a, b)]
    returns it; when the call raises, all recorded weights are as before. *)
Theorem dag_add_edge_weight self a b (wt : Weight) :
  let self' := (dag_add_edge self a b (Some wt)).1 in
  let r := (dag_add_edge self a b (Some wt)).2 in
  (r = Ret () ∧ get_edge_weight self' a b = Some wt)
  ∨ (r = Raise (ValueError a b) ∧ edge_weights self' = edge_weights self).
Proof.
  cbv zeta.
  destruct (dag_add_edge_outcomes self a b (Some wt)) as [[-> _]|[-> _]]; simpl.
  - left. split; [done|]. apply lookup_insert_eq.
  - right. done.
Qed.

End extras.

(** ** Instances of the properties that have a precondition *)

Lemma predecessors_spec_witness :
  predecessors abcd "D" = filter (λ u, "D" ∈ successors abcd u) (graph abcd).*1
  ∧ NoDup (predecessors abcd "D")
  ∧ (∀ u, u ∈ predecessors abcd "D" ↔ "D" ∈ successors abcd u).
Proof.
  apply (predecessors_spec abcd "D"%string).
  unfold keys_nodup. apply (bool_decide_unpack _). vm_compute. reflexivity.
Defined.

Lemma top_sort_on_well_formed_witness :
  ∃ order, top_sort cyclic = Ret order
    ∧ NoDup order
    ∧ (∀ v, v ∈ order ↔
            contains cyclic v = true ∧ ∀ u, edge cyclic u v → u ∈ order)
    ∧ (∀ u v, path cyclic u v → v ∈ order → before order u v)
    ∧ (∀ x, path cyclic x x → x ∉ order).
Proof.
  apply (top_sort_on_well_formed cyclic).
  apply (well_formed_base_run
           [AddEdge "A" "B" None; AddEdge "B" "A" None; AddEdge "B" "C" None]%string).
Defined.

Lemma abc_has_no_self_loop_call :
  ∀ (x : string) (weight : option unit),
    (AddEdge x x weight : op string unit unit)
    ∉ [AddEdge "A" "B" None; AddEdge "B" "C" None; AddEdge "A" "C" None]%string.
Proof.
  intros x weight Hin.
  repeat (apply elem_of_cons in Hin as [Hin|Hin]; [by simplify_eq|]).
  by apply elem_of_nil in Hin.
Qed.

Lemma top_sort_sorts_acyclic_witness :
  ∃ order, top_sort abc = Ret order
    ∧ order ≡ₚ (graph abc).*1
    ∧ ∀ u v, edge abc u v → before order u v.
Proof.
  apply (top_sort_sorts_acyclic abc).
  - apply (well_formed_dag_run
             [AddEdge "A" "B" None; AddEdge "B" "C" None; AddEdge "A" "C" None]%string).
  - apply (dag_run_acyclic
             [AddEdge "A" "B" None; AddEdge "B" "C" None; AddEdge "A" "C" None]%string).
    apply abc_has_no_self_loop_call.
Defined.

Lemma dag_top_sort_without_self_loops_witness :
  ∃ order, top_sort abc = Ret order
    ∧ order ≡ₚ (graph abc).*1
    ∧ NoDup order
    ∧ ∀ u v, edge abc u v → before order u v.
Proof.
  apply (dag_top_sort_without_self_loops
           [AddEdge "A" "B" None; AddEdge "B" "C" None; AddEdge "A" "C" None]%string).
  apply abc_has_no_self_loop_call.
Defined.

Lemma top_sort_starts_with_sources_witness :
  ∃ rest, top_sort abc
          = Ret (filter (λ k, predecessors abc k = []) (graph abc).*1 ++ rest).
Proof.
  apply (top_sort_starts_with_sources abc).
  apply (well_formed_dag_run
           [AddEdge "A" "B" None; AddEdge "B" "C" None; AddEdge "A" "C" None]%string).
Defined.

Lemma dfs_starts_with_first_successor_witness :
  ∃ rest, dfs abcd "A" = Some ("B"%string :: rest).
Proof.
  apply (dfs_starts_with_first_successor abcd "A" "B")%string.
  vm_compute. reflexivity.
Defined.
